(** * Template sanitizer ([tools/sanitize.py]): model and verification

    The script opens [template.odt] (a zip archive), walks over its
    entries, rewrites the entry called [content.xml] with eleven literal
    [str.replace] calls and copies every other entry, writing the result
    to [template_clean.odt].

    The development has three layers:
    - [Py]: the Python built-ins the script relies on ([bytes.decode],
      [str.encode], [str.replace]) on code points and bytes;
    - [Zip]: the part of [zipfile.ZipFile] the script uses ([infolist],
      [read] by name, the two forms of [writestr]);
    - the script itself ([transform], [process], [sanitize]) and the
      properties proved about it. *)

From Stdlib Require Import ZArith Lia String Ascii Strings.Byte.
From stdpp Require Import gmap list.

(** A Python [str] is a sequence of code points, a [bytes] object a
    sequence of octets. *)
Abbreviation text := (list Z).
Abbreviation bytes := (list byte).

(** ** Python built-ins *)
Module Py.

Local Open Scope Z_scope.

Definition byte_val (b : byte) : Z := Z.of_N (Byte.to_N b).

Definition byte_of (z : Z) : byte :=
  match Byte.of_N (Z.to_N z) with
  | Some b => b
  | None => x00
  end.

(** Continuation octets are [10xxxxxx]. *)
Definition is_cont (b : byte) : bool :=
  (0x80 <=? byte_val b) && (byte_val b <? 0xC0).

Definition cont_bits (b : byte) : Z := byte_val b - 0x80.

Definition is_surrogate (c : Z) : bool := (0xD800 <=? c) && (c <=? 0xDFFF).

(** [bytes.decode('utf-8')] with the default [errors='strict']: [None]
    stands for [UnicodeDecodeError]. Stray continuation octets, truncated
    sequences, overlong forms, surrogates and values above [U+10FFFF] are
    all refused. *)
Fixpoint utf8_decode (bs : bytes) : option text :=
  match bs with
  | [] => Some []
  | b0 :: r0 =>
    let v0 := byte_val b0 in
    if v0 <? 0x80 then cons v0 <$> utf8_decode r0
    else if v0 <? 0xC0 then None
    else if v0 <? 0xE0 then
      match r0 with
      | b1 :: r1 =>
        let c := (v0 - 0xC0) * 64 + cont_bits b1 in
        if is_cont b1 && (0x80 <=? c)
        then cons c <$> utf8_decode r1
        else None
      | _ => None
      end
    else if v0 <? 0xF0 then
      match r0 with
      | b1 :: b2 :: r2 =>
        let c := (v0 - 0xE0) * 4096 + cont_bits b1 * 64 + cont_bits b2 in
        if is_cont b1 && is_cont b2 && (0x800 <=? c) && negb (is_surrogate c)
        then cons c <$> utf8_decode r2
        else None
      | _ => None
      end
    else if v0 <? 0xF8 then
      match r0 with
      | b1 :: b2 :: b3 :: r3 =>
        let c := (v0 - 0xF0) * 262144 + cont_bits b1 * 4096
                 + cont_bits b2 * 64 + cont_bits b3 in
        if is_cont b1 && is_cont b2 && is_cont b3
           && (0x10000 <=? c) && (c <=? 0x10FFFF)
        then cons c <$> utf8_decode r3
        else None
      | _ => None
      end
    else None
  end.

(** One code point of [str.encode('utf-8')]; [None] stands for
    [UnicodeEncodeError] (a lone surrogate), and also covers integers
    that are no code point at all. *)
Definition utf8_encode_cp (c : Z) : option bytes :=
  if c <? 0 then None
  else if c <? 0x80 then Some [byte_of c]
  else if c <? 0x800 then
    Some [byte_of (0xC0 + c / 64); byte_of (0x80 + c mod 64)]
  else if c <? 0x10000 then
    if is_surrogate c then None
    else Some [byte_of (0xE0 + c / 4096); byte_of (0x80 + (c / 64) mod 64);
               byte_of (0x80 + c mod 64)]
  else if c <=? 0x10FFFF then
    Some [byte_of (0xF0 + c / 262144); byte_of (0x80 + (c / 4096) mod 64);
          byte_of (0x80 + (c / 64) mod 64); byte_of (0x80 + c mod 64)]
  else None.

Fixpoint utf8_encode (t : text) : option bytes :=
  match t with
  | [] => Some []
  | c :: t' =>
    b ← utf8_encode_cp c;
    bs ← utf8_encode t';
    Some (b ++ bs)
  end.

(** What a [str] may hold once it came out of [utf8_decode]: a Unicode
    scalar value. *)
Definition scalar (c : Z) : bool :=
  (0 <=? c) && (c <=? 0x10FFFF) && negb (is_surrogate c).

(** [old] is a prefix of [t]. *)
Fixpoint prefixb (old t : text) : bool :=
  match old, t with
  | [], _ => true
  | _ :: _, [] => false
  | a :: old', b :: t' => (a =? b) && prefixb old' t'
  end.

(** The left-to-right scan of [str.replace(old, new)] for a non-empty
    [old]: at each position, if [old] starts there, emit [new] and jump
    over the match ([skip] counts the code points of the match still to
    be passed), otherwise emit the code point. *)
Fixpoint replace_scan (old new : text) (skip : nat) (t : text) : text :=
  match t with
  | [] => []
  | c :: t' =>
    match skip with
    | S k => replace_scan old new k t'
    | O =>
      if prefixb old t
      then new ++ replace_scan old new (length old - 1) t'
      else c :: replace_scan old new 0 t'
    end
  end.

(** [t.replace(old, new)]: every non-overlapping occurrence of [old],
    found from the left, becomes [new]. For the empty [old] Python puts
    [new] before every code point and at the end. *)
Definition replace (old new t : text) : text :=
  match old with
  | [] => new ++ flat_map (λ c, c :: new) t
  | _ :: _ => replace_scan old new 0 t
  end.

(** A string literal of the script. Rocq string literals hold the UTF-8
    octets of what is typed, so the literal is decoded. The Python
    literals are single-quoted and contain double quotes; here they are
    typed with an apostrophe (code point 39, which occurs in none of
    them) wherever the script has a double quote (code point 34). *)
Definition lit (s : string) : text :=
  map (λ c, if c =? 39 then 34 else c)
      (default [] (utf8_decode (list_byte_of_string s))).

End Py.

(** ** The [zipfile] module, as far as the script uses it *)
Module Zip.

Inductive compression := ZIP_STORED | ZIP_DEFLATED | ZIP_BZIP2 | ZIP_LZMA.

(** The descriptive attributes of a [ZipInfo]. Sizes, CRC, flag bits and
    the header offset are functions of the stored data and of the
    position in the file: [writestr] recomputes them, in place, on the
    object it is given, and they are not part of the model. The loop
    reads through the last record of a name and writes a record only in
    its own turn, after the read of that turn, so no read ever goes
    through a record that a write has touched. *)
Record ZipInfo := {
  filename : text;
  date_time : Z * Z * Z * Z * Z * Z;
  compress_type : compression;
  comment : bytes;
  extra : bytes;
  create_system : Z;
  external_attr : Z
}.

(** An entry of an archive: its central-directory record and the
    (uncompressed) data stored for it. *)
Record member := {
  info : ZipInfo;
  payload : bytes
}.

(** A [ZipFile] opened with mode ['r']: [filelist] has one item per
    central-directory record, in order; [NameToInfo] is the dictionary
    the same loop fills with [NameToInfo[x.filename] = x], so a later
    record replaces an earlier one of the same name. *)
Record ZipFile := {
  filelist : list member;
  NameToInfo : gmap text member
}.

Definition RealGetContents (central : list member) : ZipFile :=
  foldl (λ zf x, {| filelist := filelist zf ++ [x];
                    NameToInfo := <[filename (info x) := x]> (NameToInfo zf) |})
        {| filelist := []; NameToInfo := ∅ |} central.

Definition infolist (zf : ZipFile) : list ZipInfo := info <$> filelist zf.

(** [getinfo(name)]: a dictionary lookup; [None] stands for [KeyError]. *)
Definition getinfo (zf : ZipFile) (name : text) : option member :=
  NameToInfo zf !! name.

(** [read(name)] with a name (not a [ZipInfo]) goes through [getinfo]. *)
Definition read (zf : ZipFile) (name : text) : option bytes :=
  payload <$> getinfo zf name.

(** What [writestr] takes from the host when it is given a bare name:
    the current local time and the platform code. *)
Record host := {
  localtime : Z * Z * Z * Z * Z * Z;
  system : Z
}.

Definition ends_with_slash (name : text) : bool :=
  match last name with
  | Some c => (c =? 47)%Z
  | None => false
  end.

(** The [ZipInfo] that [writestr(name, data)] builds for a name free of
    NUL and of the host's path separator (as [content.xml] is), on a
    [ZipFile] opened with the default [compression=ZIP_STORED]. *)
Definition fresh_info (h : host) (name : text) : ZipInfo :=
  {| filename := name;
     date_time := localtime h;
     compress_type := ZIP_STORED;
     comment := [];
     extra := [];
     create_system := system h;
     external_attr :=
       if ends_with_slash name
       then Z.lor (Z.shiftl 16893 16) 0x10   (* 0o40775 << 16 | 0x10 *)
       else Z.shiftl 384 16 |}.              (* 0o600 << 16 *)

End Zip.

(** ** Effects of a run *)

Inductive exn := KeyError | UnicodeDecodeError | UnicodeEncodeError.

(** What a run acts on: the entries written to the destination archive
    so far, and the lines printed. *)
Record world := {
  zout : list Zip.member;
  stdout : list text
}.

(** A statement either raises or returns, and leaves a world behind in
    both cases. *)
Definition run (A : Type) : Type := world → (exn + A) * world.

Definition run_ret {A} (a : A) : run A := λ w, (inr a, w).

Definition run_bind {A B} (k : A → run B) (m : run A) : run B :=
  λ w, match m w with
       | (inr a, w') => k a w'
       | (inl e, w') => (inl e, w')
       end.

#[export] Instance run_mret : MRet run := @run_ret.
#[export] Instance run_mbind : MBind run := @run_bind.

Definition raise {A} (e : exn) : run A := λ w, (inl e, w).

(** An optional value, raising [e] when there is none. *)
Definition or_raise {A} (e : exn) (o : option A) : run A :=
  match o with
  | Some a => mret a
  | None => raise e
  end.

(** [zout.writestr(name, data)] *)
Definition writestr_name (h : Zip.host) (name : text) (data : bytes) : run unit :=
  λ w, (inr (),
        {| zout := zout w ++ [{| Zip.info := Zip.fresh_info h name;
                                 Zip.payload := data |}];
           stdout := stdout w |}).

(** [zout.writestr(zinfo, data)]: the given [ZipInfo] is written as it is. *)
Definition writestr_info (zinfo : Zip.ZipInfo) (data : bytes) : run unit :=
  λ w, (inr (),
        {| zout := zout w ++ [{| Zip.info := zinfo; Zip.payload := data |}];
           stdout := stdout w |}).

Definition print (line : text) : run unit :=
  λ w, (inr (), {| zout := zout w; stdout := stdout w ++ [line] |}).

(** [for x in xs: body(x)] *)
Fixpoint for_each {A} (xs : list A) (body : A → run unit) : run unit :=
  match xs with
  | [] => mret ()
  | x :: xs' => body x ≫= λ _, for_each xs' body
  end.

(** ** The script *)

Import Py.

Definition content_xml : text := Eval vm_compute in lit "content.xml".

(** The search and replacement literals, in the order of the script. *)
Definition invoice_no_old : text := Eval vm_compute in
  lit "<text:span text:style-name='T2'>FAKTURA - DAŇOVÝ DOKLAD č. 300</text:span><text:span text:style-name='T3'>6</text:span><text:span text:style-name='T4'>2025</text:span>".

Definition invoice_no_new : text := Eval vm_compute in
  lit "<text:span text:style-name='T2'>FAKTURA - DAŇOVÝ DOKLAD č. {{INVOICE_NO}}</text:span>".

Definition issue_day_old : text := Eval vm_compute in
  lit "<text:span text:style-name='T16'>3</text:span><text:span text:style-name='T17'>0</text:span><text:span text:style-name='T18'>.</text:span>".

Definition issue_day_new : text := Eval vm_compute in
  lit "<text:span text:style-name='T16'>{{ISSUE_DAY}}.</text:span>".

Definition issue_month_year_old : text := Eval vm_compute in
  lit "<text:span text:style-name='T21'>6</text:span><text:span text:style-name='T22'>. 2025</text:span>".

Definition issue_month_year_new : text := Eval vm_compute in
  lit "<text:span text:style-name='T21'>{{ISSUE_MONTH_YEAR}}</text:span>".

Definition duzp_day_old : text := Eval vm_compute in
  lit "<text:span text:style-name='T29'><text:s text:c='2'/></text:span><text:span text:style-name='T30'>30</text:span><text:span text:style-name='T31'>.</text:span>".

Definition duzp_day_new : text := Eval vm_compute in
  lit "<text:span text:style-name='T30'>{{DUZP_DAY}}.</text:span>".

Definition duzp_month_year_old : text := Eval vm_compute in
  lit "<text:span text:style-name='T34'>6</text:span><text:span text:style-name='T35'>. 2025</text:span>".

Definition duzp_month_year_new : text := Eval vm_compute in
  lit "<text:span text:style-name='T34'>{{DUZP_MONTH_YEAR}}</text:span>".

Definition due_day_old : text := Eval vm_compute in
  lit "<text:span text:style-name='T42'>30</text:span><text:span text:style-name='T43'>.</text:span>".

Definition due_day_new : text := Eval vm_compute in
  lit "<text:span text:style-name='T42'>{{DUE_DAY}}.</text:span>".

Definition due_month_year_old : text := Eval vm_compute in
  lit "<text:span text:style-name='T46'>9</text:span><text:span text:style-name='T47'>. 2025</text:span>".

Definition due_month_year_new : text := Eval vm_compute in
  lit "<text:span text:style-name='T46'>{{DUE_MONTH_YEAR}}</text:span>".

Definition vs_old : text := Eval vm_compute in
  lit "30062025".

Definition vs_new : text := Eval vm_compute in
  lit "{{VS}}".

Definition customer_search : text := Eval vm_compute in
  lit "<text:h text:style-name='Heading3' text:outline-level='3'><text:line-break/>ScioŠkola Praha Nusle - základní škola, s.r.o.</text:h><text:p text:style-name='P72'>Boleslavova 250/1, Nusle, 140 00 Praha 4</text:p><text:p text:style-name='P73'>Česká republika</text:p><text:h text:style-name='Heading3' text:outline-level='3'>IČ: 07231881</text:h>".

Definition customer_new : text := Eval vm_compute in
  lit "{{CUSTOMER_BLOCK}}".

Definition description_old : text := Eval vm_compute in
  lit "<text:span text:style-name='T108'>Konzultační a programátorské služby na<text:s/></text:span><text:span text:style-name='T109'>EduMap</text:span><text:span text:style-name='T110'>.</text:span>".

Definition description_new : text := Eval vm_compute in
  lit "<text:span text:style-name='T108'>{{DESCRIPTION}}</text:span>".

Definition amount_old : text := Eval vm_compute in
  lit "90<text:s/>000,00 Kč".

Definition amount_new : text := Eval vm_compute in
  lit "{{AMOUNT}}".

(** The eleven [xml = xml.replace(...)] statements. *)
Definition transform (xml : text) : text :=
  (* 1. Invoice No Title *)
  let xml := replace invoice_no_old invoice_no_new xml in
  (* 2. Issue Date *)
  let xml := replace issue_day_old issue_day_new xml in
  let xml := replace issue_month_year_old issue_month_year_new xml in
  (* 3. DUZP *)
  let xml := replace duzp_day_old duzp_day_new xml in
  let xml := replace duzp_month_year_old duzp_month_year_new xml in
  (* 4. Due Date *)
  let xml := replace due_day_old due_day_new xml in
  let xml := replace due_month_year_old due_month_year_new xml in
  (* 5. VS *)
  let xml := replace vs_old vs_new xml in
  (* 6. Customer Block *)
  let xml := replace customer_search customer_new xml in
  (* 7. Description *)
  let xml := replace description_old description_new xml in
  (* 8. Amounts *)
  let xml := replace amount_old amount_new xml in
  xml.

(** The body of the loop, for one [item] of [zin.infolist()]. *)
Definition process (zin : Zip.ZipFile) (h : Zip.host) (item : Zip.ZipInfo)
    : run unit :=
  content ← or_raise KeyError (Zip.read zin (Zip.filename item));
  if decide (Zip.filename item = content_xml) then
    xml ← or_raise UnicodeDecodeError (utf8_decode content);
    let xml := transform xml in
    data ← or_raise UnicodeEncodeError (utf8_encode xml);
    writestr_name h (Zip.filename item) data
  else
    writestr_info item content.

Definition completion_notice : text := Eval vm_compute in
  lit "Template sanitized.".

Definition start : world := {| zout := []; stdout := [] |}.

(** [sanitize()], on a host [h] and with [src] the entries of
    [template.odt]. The two [with] blocks close both archives whether the
    loop ends or raises, so the entries written before an exception stay
    in the destination. *)
Definition sanitize (h : Zip.host) (src : list Zip.member)
    : (exn + unit) * world :=
  let zin := Zip.RealGetContents src in
  (for_each (Zip.infolist zin) (process zin h) ≫= λ _,
   print completion_notice) start.

(** ** Vocabulary of the properties *)

(** A replacement rule is a pair (search literal, replacement literal);
    [RULES] lists the rules of [transform] in the order of the script. *)
Definition rule : Type := text * text.

Definition RULES : list rule :=
  [ (invoice_no_old, invoice_no_new);
    (issue_day_old, issue_day_new);
    (issue_month_year_old, issue_month_year_new);
    (duzp_day_old, duzp_day_new);
    (duzp_month_year_old, duzp_month_year_new);
    (due_day_old, due_day_new);
    (due_month_year_old, due_month_year_new);
    (vs_old, vs_new);
    (customer_search, customer_new);
    (description_old, description_new);
    (amount_old, amount_new) ].

Definition apply_rule (r : rule) (t : text) : text := replace r.1 r.2 t.

(** Each rule works on the text the previous one produced. *)
Definition apply_rules (rs : list rule) (t : text) : text :=
  foldl (λ xml r, apply_rule r xml) t rs.

(** [p] occurs in [t] (as a contiguous substring). *)
Definition occurs (p t : text) : Prop := ∃ a b, t = a ++ p ++ b.

Fixpoint infixb (p t : text) : bool :=
  prefixb p t ||
  match t with
  | [] => false
  | _ :: t' => infixb p t'
  end.

(** The number of positions of [t] at which [p] starts. *)
Fixpoint occurrences (p t : text) : nat :=
  (if prefixb p t then 1 else 0) +
  match t with
  | [] => 0
  | _ :: t' => occurrences p t'
  end.

(** [sep.join(parts)] *)
Fixpoint join (sep : text) (parts : list text) : text :=
  match parts with
  | [] => []
  | p :: rest =>
    match rest with
    | [] => p
    | _ :: _ => p ++ sep ++ join sep rest
    end
  end.

(** The stretches of [t] between the matches the scan of [replace]
    finds: [t.split(old)] for a non-empty [old]. *)
Fixpoint gaps_scan (old : text) (skip : nat) (t : text) : list text :=
  match t with
  | [] => [[]]
  | c :: t' =>
    match skip with
    | S k => gaps_scan old k t'
    | O =>
      if prefixb old t
      then [] :: gaps_scan old (length old - 1) t'
      else match gaps_scan old 0 t' with
           | g :: gs => (c :: g) :: gs
           | [] => [[c]]
           end
    end
  end.

Definition gaps (old t : text) : list text := gaps_scan old 0 t.

(** The non-empty suffixes of a text. *)
Fixpoint tails1 (t : text) : list text :=
  match t with
  | [] => []
  | _ :: t' => t :: tails1 t'
  end.

(** One of the two texts starts with the other. *)
Definition clash (x y : text) : bool := prefixb x y || prefixb y x.

(** No way of laying [p] over [r] so that they share a position agrees
    on all shared positions: [p] can neither lie inside [r], nor contain
    it, nor run over one of its ends. *)
Definition overlap_free (p r : text) : bool :=
  forallb (λ k, negb (clash k p)) (tails1 r)
  && forallb (λ k, negb (clash k r)) (tails1 p).

(** No proper non-empty suffix of [s] is a prefix of [s]: two
    occurrences of [s] never overlap. *)
Definition unbordered (s : text) : bool :=
  forallb (λ k, negb (prefixb k s)) (tails1 (tail s)).

Definition nonempty (s : text) : bool :=
  match s with [] => false | _ :: _ => true end.

(** A rule list in which no search literal can be produced, or half
    produced, by any replacement literal. *)
Definition compatible (rs : list rule) : bool :=
  forallb (λ r, nonempty r.1 && forallb (λ q, overlap_free q.1 r.2) rs) rs.

(** Entry names of an archive. *)
Definition names (ms : list Zip.member) : list text :=
  (λ m, Zip.filename (Zip.info m)) <$> ms.

Definition name_of (m : Zip.member) : text := Zip.filename (Zip.info m).

(** The last entry of an archive that bears a given name. *)
Definition last_named (name : text) (ms : list Zip.member)
    : option Zip.member :=
  last (filter (λ m, name_of m = name) ms).

(** What one turn of the loop appends to the destination, or the
    exception it raises: [process] without the world. *)
Definition written (zin : Zip.ZipFile) (h : Zip.host) (item : Zip.ZipInfo)
    : exn + Zip.member :=
  match Zip.read zin (Zip.filename item) with
  | None => inl KeyError
  | Some content =>
    if decide (Zip.filename item = content_xml) then
      match utf8_decode content with
      | None => inl UnicodeDecodeError
      | Some xml =>
        match utf8_encode (transform xml) with
        | None => inl UnicodeEncodeError
        | Some data =>
          inr {| Zip.info := Zip.fresh_info h (Zip.filename item);
                 Zip.payload := data |}
        end
      end
    else inr {| Zip.info := item; Zip.payload := content |}
  end.

(** The world after [out] has been appended to the destination. *)
Definition appended (w : world) (out : list Zip.member) : world :=
  {| zout := zout w ++ out; stdout := stdout w |}.

(** Two rules that cannot interfere: neither search literal can overlap
    the search literal or the replacement literal of the other rule. *)
Definition apart (q r : rule) : bool :=
  nonempty q.1 && nonempty r.1
  && overlap_free q.1 r.1 && overlap_free r.1 q.1
  && overlap_free q.1 r.2 && overlap_free r.1 q.2.

(** A rule list whose rules are pairwise apart. *)
Definition independent (rs : list rule) : bool :=
  forallb (λ q, forallb (λ r, bool_decide (q = r) || apart q r) rs) rs.

(** ** Sample archives *)

Definition host0 : Zip.host :=
  {| Zip.localtime := (2025, 7, 1, 12, 0, 0)%Z; Zip.system := 3 |}.

(** An entry as a document editor stores it: deflated, mode [0o100644]. *)
Definition entry (name : string) (data : bytes) : Zip.member :=
  {| Zip.info :=
       {| Zip.filename := lit name;
          Zip.date_time := (2025, 6, 30, 9, 0, 0)%Z;
          Zip.compress_type := Zip.ZIP_DEFLATED;
          Zip.comment := [];
          Zip.extra := [];
          Zip.create_system := 3;
          Zip.external_attr := Z.shiftl 33188 16 |};
     Zip.payload := data |}.

Definition utf8 (s : string) : bytes := list_byte_of_string s.

(** A small document: the variable symbol once, the amount twice. *)
Definition demo_archive : list Zip.member :=
  [ entry "mimetype" (utf8 "application/vnd.oasis.opendocument.text");
    entry "content.xml"
      (utf8 "<p>VS 30062025: 90<text:s/>000,00 Kč + 90<text:s/>000,00 Kč</p>");
    entry "styles.xml" (utf8 "<styles/>") ].



(** A text with the amount twice, and the text of [drifted_archive]. *)
Definition amount_twice : text :=
  lit "a 90<text:s/>000,00 Kč b 90<text:s/>000,00 Kč c".



(** Two entries called [styles.xml] with different data. *)
Definition twin_styles_archive : list Zip.member :=
  [ entry "styles.xml" (utf8 "<old/>");
    entry "mimetype" (utf8 "application/vnd.oasis.opendocument.text");
    entry "styles.xml" (utf8 "<new/>") ].

(** Another host: a later run on another platform. *)
Definition host1 : Zip.host :=
  {| Zip.localtime := (2026, 1, 2, 3, 4, 5)%Z; Zip.system := 0 |}.

(** Two entries called [content.xml] with different data. *)
Definition twin_archive : list Zip.member :=
  [ entry "content.xml" (utf8 "<p>first: 30062025</p>");
    entry "content.xml" (utf8 "<p>second</p>") ].

(** * Properties *)

(** ** The literals *)

(** The literals have the lengths Python's [len] gives for them ... *)
Example literal_lengths :
  (λ r : rule, (length r.1, length r.2)) <$> RULES
  = [ (167, 85); (138, 59); (97, 65); (158, 58); (97, 64); (93, 57);
      (97, 63); (8, 6); (343, 18); (192, 61); (20, 10) ].
Proof. vm_compute. reflexivity. Qed.

(** ... hold double quotes where the script has them and no apostrophe. *)
Example literal_quotes :
  forallb (λ r : rule, negb (existsb (Z.eqb 39) (r.1 ++ r.2))) RULES = true ∧
  (λ r : rule, length (filter (λ c, c = 34%Z) r.1)) <$> RULES
  = [6; 6; 4; 8; 4; 4; 4; 0; 12; 6; 0].
Proof. split; vm_compute; reflexivity. Qed.

(** ** Prefixes and occurrences *)

Section text_facts.
Implicit Types (p s t old new a b k : text).

Lemma prefixb_spec p t : prefixb p t = true ↔ p `prefix_of` t.
Proof.
  revert t; induction p as [|x p IH]; intros [|y t]; simpl.
  - split; [intros _; apply prefix_nil | done].
  - split; [intros _; apply prefix_nil | done].
  - split; [done | intros H; by apply prefix_nil_not in H].
  - rewrite andb_true_iff, Z.eqb_eq, IH. split.
    + intros [-> H]. by apply prefix_cons.
    + intros H. split; [by eapply prefix_cons_inv_1 | by eapply prefix_cons_inv_2].
Qed.

Lemma prefixb_false p t : prefixb p t = false ↔ ¬ p `prefix_of` t.
Proof. rewrite <- prefixb_spec. by destruct (prefixb p t). Qed.

Lemma prefixb_app p t : prefixb p (p ++ t) = true.
Proof. apply prefixb_spec. by apply prefix_app_r. Qed.

Lemma occurs_nil t : occurs [] t.
Proof. by exists [], t. Qed.

Lemma occurs_prefix p t : p `prefix_of` t → occurs p t.
Proof. intros [k ->]. by exists [], k. Qed.

Lemma occurs_cons p c t : occurs p t → occurs p (c :: t).
Proof. intros (a & b & ->). by exists (c :: a), b. Qed.

Lemma occurs_cons_inv p c t :
  occurs p (c :: t) → p `prefix_of` (c :: t) ∨ occurs p t.
Proof.
  intros ([|x a] & b & H); simpl in H.
  - left. by exists b.
  - right. injection H as _ ->. by exists a, b.
Qed.

Lemma occurs_app_l p a b : occurs p a → occurs p (a ++ b).
Proof.
  intros (u & v & ->). exists u, (v ++ b). by rewrite <- !app_assoc.
Qed.

Lemma occurs_app_r p a b : occurs p b → occurs p (a ++ b).
Proof.
  intros (u & v & ->). exists (a ++ u), v. by rewrite <- !app_assoc.
Qed.

Lemma occurs_nil_inv p : occurs p [] → p = [].
Proof.
  intros (a & b & H). symmetry in H.
  apply app_eq_nil in H as [_ H]. by apply app_eq_nil in H as [H _].
Qed.

Lemma infixb_spec p t : infixb p t = true ↔ occurs p t.
Proof.
  induction t as [|c t IH]; simpl.
  - rewrite orb_false_r, prefixb_spec. split.
    + apply occurs_prefix.
    + intros H. apply occurs_nil_inv in H as ->. apply prefix_nil.
  - rewrite orb_true_iff, prefixb_spec, IH. split.
    + intros [H|H]; [by apply occurs_prefix | by apply occurs_cons].
    + apply occurs_cons_inv.
Qed.

Lemma infixb_false p t : infixb p t = false ↔ ¬ occurs p t.
Proof. rewrite <- infixb_spec. by destruct (infixb p t). Qed.

(** A prefix of [x ++ y] lies inside [x] or runs over all of [x]. *)
Lemma prefix_app_cases p x y :
  p `prefix_of` x ++ y →
  p `prefix_of` x ∨ ∃ p', p = x ++ p' ∧ p' ≠ [] ∧ p' `prefix_of` y.
Proof.
  revert p; induction x as [|c x IH]; intros p Hp; simpl in *.
  - destruct p as [|d p]; [left; apply prefix_nil|].
    right. by exists (d :: p).
  - destruct p as [|d p]; [left; apply prefix_nil|].
    pose proof (prefix_cons_inv_1 _ _ _ _ Hp) as ->.
    apply prefix_cons_inv_2, IH in Hp as [H|(p' & -> & Hne & H)].
    + left. by apply prefix_cons.
    + right. by exists p'.
Qed.

Lemma tails1_spec k t : k ∈ tails1 t ↔ k ≠ [] ∧ k `suffix_of` t.
Proof.
  induction t as [|c t IH]; simpl.
  - rewrite elem_of_nil. split; [done|].
    intros [Hne H]. by apply suffix_nil_inv in H.
  - rewrite elem_of_cons, IH. split.
    + intros [->|[Hne H]]; [done | split; [done | by apply suffix_cons_r]].
    + intros [Hne H]. destruct k as [|d k]; [done|].
      apply suffix_cons_inv in H as [->|H]; auto.
Qed.

End text_facts.

(** ** The scan of [replace] *)

Lemma replace_scan_skip (old new : text) k u t :
  length u = k → replace_scan old new k (u ++ t) = replace_scan old new 0 t.
Proof.
  revert k; induction u as [|c u IH]; intros k <-; simpl; [done|].
  by apply IH.
Qed.

Lemma gaps_scan_skip (old : text) k u t :
  length u = k → gaps_scan old k (u ++ t) = gaps_scan old 0 t.
Proof.
  revert k; induction u as [|c u IH]; intros k <-; simpl; [done|].
  by apply IH.
Qed.

Section scan.
Variables old new : text.
Hypothesis old_ne : old ≠ [].

Lemma replace_nil : replace old new [] = [].
Proof using Type*. by destruct old. Qed.

(** Where [old] starts, [new] is emitted and the scan resumes behind
    the match. *)
Lemma replace_hit t : replace old new (old ++ t) = new ++ replace old new t.
Proof using Type*.
  destruct old as [|a o] eqn:E; [done|]. unfold replace.
  change ((a :: o) ++ t) with (a :: (o ++ t)).
  cbn [replace_scan].
  replace (prefixb (a :: o) (a :: o ++ t)) with true
    by (symmetry; apply (prefixb_app (a :: o))).
  f_equal. apply replace_scan_skip. simpl. lia.
Qed.

(** Where it does not, the code point is kept. *)
Lemma replace_miss c t :
  prefixb old (c :: t) = false →
  replace old new (c :: t) = c :: replace old new t.
Proof using Type*.
  intros H. destruct old as [|a o] eqn:E; [done|]. unfold replace.
  cbn [replace_scan]. by rewrite H.
Qed.

(** Induction along the scan. *)
Lemma scan_ind (P : text → Prop) :
  P [] →
  (∀ t, P t → P (old ++ t)) →
  (∀ c t, prefixb old (c :: t) = false → P t → P (c :: t)) →
  ∀ t, P t.
Proof using Type*.
  intros Hnil Hhit Hmiss t.
  remember (length t) as n eqn:Hn. revert t Hn.
  induction n as [n IH] using lt_wf_ind. intros [|c t] Hn; [done|].
  destruct (prefixb old (c :: t)) eqn:Hp.
  - apply prefixb_spec in Hp as [k Hk]. rewrite Hk. apply Hhit.
    apply (IH (length k)); [|done]. subst n. rewrite Hk, length_app.
    destruct old; [done | simpl; lia].
  - apply Hmiss; [done|]. apply (IH (length t)); [subst n; simpl; lia | done].
Qed.

Lemma gaps_scan_nonempty k t : gaps_scan old k t ≠ [].
Proof.
  revert k; induction t as [|c t IH]; intros k; simpl; [done|].
  destruct k; [|apply IH]. destruct (prefixb old (c :: t)); [done|].
  by destruct (gaps_scan old 0 t).
Qed.

Lemma gaps_nil : gaps old [] = [[]].
Proof. done. Qed.

Lemma gaps_hit t : gaps old (old ++ t) = [] :: gaps old t.
Proof using Type*.
  destruct old as [|a o] eqn:E; [done|]. unfold gaps.
  change ((a :: o) ++ t) with (a :: (o ++ t)).
  cbn [gaps_scan].
  replace (prefixb (a :: o) (a :: o ++ t)) with true
    by (symmetry; apply (prefixb_app (a :: o))).
  f_equal. apply gaps_scan_skip. simpl. lia.
Qed.

Lemma gaps_miss c t :
  prefixb old (c :: t) = false →
  ∃ g gs, gaps old t = g :: gs ∧ gaps old (c :: t) = (c :: g) :: gs.
Proof.
  intros H. unfold gaps. cbn [gaps_scan]. rewrite H.
  pose proof (gaps_scan_nonempty 0 t) as Hne.
  destruct (gaps_scan old 0 t) as [|g gs]; [done|]. by exists g, gs.
Qed.

Lemma gaps_nonempty t : gaps old t ≠ [].
Proof. apply gaps_scan_nonempty. Qed.

End scan.

(** ** Joining *)

Lemma join_cons sep g g' gs :
  join sep (g :: g' :: gs) = g ++ sep ++ join sep (g' :: gs).
Proof. done. Qed.

Lemma join_cons_head sep c g gs :
  join sep ((c :: g) :: gs) = c :: join sep (g :: gs).
Proof. by destruct gs. Qed.

Lemma join_head_prefix sep g gs : g `prefix_of` join sep (g :: gs).
Proof. destruct gs; [done|]. rewrite join_cons. by apply prefix_app_r. Qed.

Lemma occurs_join_part p sep parts :
  Exists (occurs p) parts → occurs p (join sep parts).
Proof.
  induction parts as [|g [|g' gs] IH]; intros H.
  - by apply Exists_nil in H.
  - apply Exists_cons in H as [H|H]; [done | by apply Exists_nil in H].
  - rewrite join_cons. apply Exists_cons in H as [H|H].
    + by apply occurs_app_l.
    + by apply occurs_app_r, occurs_app_r, IH.
Qed.

(** ** What [replace] does, in terms of the gaps *)

Section replace_gaps.
Variables old new : text.
Hypothesis old_ne : old ≠ [].

(** The text is its gaps joined by [old] ... *)
Lemma join_gaps t : join old (gaps old t) = t.
Proof using Type*.
  induction t as [| t IH | c t Hmiss IH] using (scan_ind old old_ne).
  - done.
  - rewrite gaps_hit by done.
    pose proof (gaps_nonempty old t) as Hne.
    destruct (gaps old t) as [|g gs] eqn:E; [done|].
    by rewrite join_cons, IH.
  - destruct (gaps_miss old c t Hmiss) as (g & gs & Hg & ->).
    rewrite join_cons_head. rewrite Hg in IH. by rewrite IH.
Qed.

(** ... and [replace] joins the same gaps by [new]. *)
Lemma replace_join t : replace old new t = join new (gaps old t).
Proof using Type*.
  induction t as [| t IH | c t Hmiss IH] using (scan_ind old old_ne).
  - by rewrite replace_nil.
  - rewrite replace_hit, gaps_hit by done.
    pose proof (gaps_nonempty old t) as Hne.
    destruct (gaps old t) as [|g gs] eqn:E; [done|].
    by rewrite join_cons, IH.
  - rewrite replace_miss by done.
    destruct (gaps_miss old c t Hmiss) as (g & gs & Hg & ->).
    rewrite join_cons_head. rewrite Hg in IH. by rewrite IH.
Qed.

(** No gap contains [old]: the scan takes the leftmost match. *)
Lemma gaps_clean t : Forall (λ g, ¬ occurs old g) (gaps old t).
Proof using Type*.
  induction t as [| t IH | c t Hmiss IH] using (scan_ind old old_ne).
  - apply Forall_singleton. intros H. by apply occurs_nil_inv in H.
  - rewrite gaps_hit by done. apply Forall_cons. split; [|done].
    intros H. by apply occurs_nil_inv in H.
  - destruct (gaps_miss old c t Hmiss) as (g & gs & Hg & ->).
    rewrite Hg in IH. apply Forall_cons in IH as [Hg0 Hgs].
    apply Forall_cons. split; [|done].
    intros [H|H]%occurs_cons_inv; [|done].
    apply prefixb_false in Hmiss. apply Hmiss.
    etrans; [exact H|]. apply prefix_cons.
    rewrite <- (join_gaps t), Hg. apply join_head_prefix.
Qed.

(** A text without [old] is returned as it is. *)
Lemma replace_absent t : ¬ occurs old t → replace old new t = t.
Proof using Type*.
  induction t as [| t IH | c t Hmiss IH] using (scan_ind old old_ne);
    intros Habs.
  - by rewrite replace_nil.
  - destruct Habs. apply occurs_prefix. by apply prefix_app_r.
  - rewrite replace_miss by done. f_equal. apply IH.
    intros H. by apply Habs, occurs_cons.
Qed.

End replace_gaps.

(** ** Counting occurrences of an unbordered literal *)

Section counting.
Variable old : text.
Hypothesis old_ne : old ≠ [].
Hypothesis old_unbordered : unbordered old = true.

Lemma unbordered_spec k :
  k ≠ [] → k `suffix_of` tail old → ¬ k `prefix_of` old.
Proof using Type*.
  intros Hne Hk. apply prefixb_false.
  unfold unbordered in old_unbordered.
  rewrite forallb_forall in old_unbordered.
  apply negb_true_iff, old_unbordered, list_elem_of_In, tails1_spec. done.
Qed.

(** Inside a match no other match starts. *)
Lemma occurrences_inside u t :
  u `suffix_of` tail old → occurrences old (u ++ t) = occurrences old t.
Proof using Type*.
  induction u as [|c u IH]; intros Hu; [done|].
  change ((c :: u) ++ t) with (c :: (u ++ t)). cbn [occurrences].
  rewrite IH by (by eapply suffix_cons_l).
  replace (prefixb old (c :: u ++ t)) with false; [done|].
  symmetry. apply prefixb_false.
  intros [H|(p' & Hp & _ & _)]%(prefix_app_cases old (c :: u) t).
  - apply prefix_length in H. apply suffix_length in Hu.
    destruct old; [done|]. simpl in *. lia.
  - apply (unbordered_spec (c :: u)); [done | done |].
    rewrite Hp. by apply prefix_app_r.
Qed.

Lemma occurrences_hit t :
  occurrences old (old ++ t) = S (occurrences old t).
Proof using Type*.
  assert (∃ a, old ++ t = a :: (tail old ++ t)) as [a Hs]
    by (destruct old as [|a o]; [done | by exists a]).
  rewrite Hs. cbn [occurrences].
  rewrite <- Hs, prefixb_app, occurrences_inside; done.
Qed.

Lemma occurrences_miss c t :
  prefixb old (c :: t) = false →
  occurrences old (c :: t) = occurrences old t.
Proof. intros H. cbn [occurrences]. by rewrite H. Qed.

(** There is one more gap than there are occurrences. *)
Lemma gaps_length t : length (gaps old t) = S (occurrences old t).
Proof using Type*.
  induction t as [| t IH | c t Hmiss IH] using (scan_ind old old_ne).
  - simpl. by destruct old.
  - rewrite gaps_hit, occurrences_hit by done. simpl. by rewrite IH.
  - rewrite occurrences_miss by done.
    destruct (gaps_miss old c t Hmiss) as (g & gs & Hg & ->).
    by rewrite <- IH, Hg.
Qed.

End counting.

(** ** Literals that cannot overlap *)

Section overlap.
Variables p r : text.
Hypothesis p_ne : p ≠ [].
Hypothesis free : overlap_free p r = true.

Lemma overlap_free_r k :
  k ≠ [] → k `suffix_of` r → ¬ k `prefix_of` p ∧ ¬ p `prefix_of` k.
Proof using Type*.
  intros Hne Hk. unfold overlap_free in free.
  apply andb_true_iff in free as [H _]. rewrite forallb_forall in H.
  specialize (H k). rewrite <- list_elem_of_In, tails1_spec in H.
  specialize (H (conj Hne Hk)). unfold clash in H.
  apply negb_true_iff, orb_false_iff in H as [H1 H2].
  by rewrite <- !prefixb_false.
Qed.

Lemma overlap_free_p k :
  k ≠ [] → k `suffix_of` p → ¬ k `prefix_of` r ∧ ¬ r `prefix_of` k.
Proof using Type*.
  intros Hne Hk. unfold overlap_free in free.
  apply andb_true_iff in free as [_ H]. rewrite forallb_forall in H.
  specialize (H k). rewrite <- list_elem_of_In, tails1_spec in H.
  specialize (H (conj Hne Hk)). unfold clash in H.
  apply negb_true_iff, orb_false_iff in H as [H1 H2].
  by rewrite <- !prefixb_false.
Qed.

(** An occurrence of [p] cannot start inside [r]. *)
Lemma occurs_behind r' b :
  r' `suffix_of` r → occurs p (r' ++ b) → occurs p b.
Proof using Type*.
  induction r' as [|c r' IH]; intros Hr; [done|].
  change ((c :: r') ++ b) with (c :: (r' ++ b)).
  intros [H|H]%occurs_cons_inv.
  - destruct (overlap_free_r (c :: r')) as [H1 H2]; [done..|].
    apply (prefix_app_cases p (c :: r') b) in H as [H|(p' & -> & _ & _)].
    + by destruct H2.
    + destruct H1. by apply prefix_app_r.
  - apply IH; [by eapply suffix_cons_l | done].
Qed.

(** An occurrence of [p] in [a ++ r ++ b] does not touch [r]. *)
Lemma occurs_around a b :
  occurs p (a ++ r ++ b) → occurs p a ∨ occurs p b.
Proof using Type*.
  induction a as [|c a IH].
  - intros H. right. by apply (occurs_behind r).
  - change ((c :: a) ++ r ++ b) with (c :: (a ++ r ++ b)).
    intros [H|H]%occurs_cons_inv.
    + apply (prefix_app_cases p (c :: a) (r ++ b)) in H
        as [H|(p' & Hp & Hne & H)].
      * left. by apply occurs_prefix.
      * destruct (overlap_free_p p') as [H1 H2];
          [done | by exists (c :: a) |].
        apply prefix_app_cases in H as [H|(p'' & -> & _ & _)].
        -- by destruct H1.
        -- destruct H2. by apply prefix_app_r.
    + destruct (IH H) as [H'|H']; [left; by apply occurs_cons | by right].
Qed.

(** Joining with [r] creates no occurrence of [p]. *)
Lemma occurs_join_inv parts :
  occurs p (join r parts) → Exists (occurs p) parts.
Proof using Type*.
  induction parts as [|g [|g' gs] IH]; intros H.
  - by apply occurs_nil_inv in H.
  - by apply Exists_cons_hd.
  - rewrite join_cons in H. apply occurs_around in H as [H|H].
    + by apply Exists_cons_hd.
    + by apply Exists_cons_tl, IH.
Qed.

End overlap.

(** ** What [replace] leaves behind *)

(** A literal that the replacement cannot overlap is absent after the
    replacement if it was absent before. *)
Lemma replace_keeps_absent (old new p t : text) :
  old ≠ [] → p ≠ [] → overlap_free p new = true →
  ¬ occurs p t → ¬ occurs p (replace old new t).
Proof.
  intros Hold Hp Hfree Habs H. apply Habs.
  rewrite replace_join in H by done.
  apply occurs_join_inv in H; [|done..].
  rewrite <- (join_gaps old Hold t). by apply occurs_join_part.
Qed.

(** The search literal itself is gone after the replacement. *)
Lemma replace_removes (old new t : text) :
  old ≠ [] → overlap_free old new = true →
  ¬ occurs old (replace old new t).
Proof.
  intros Hold Hfree H.
  rewrite replace_join in H by done.
  apply occurs_join_inv in H; [|done..].
  apply Exists_exists in H as (g & Hg & H).
  pose proof (gaps_clean old Hold t) as Hc.
  rewrite Forall_forall in Hc. by apply (Hc g).
Qed.

(** ** Rule lists *)

Section rule_lists.
Implicit Types (q r : rule) (rs : list rule) (t : text).

Lemma apply_rules_cons r rs t :
  apply_rules (r :: rs) t = apply_rules rs (apply_rule r t).
Proof. done. Qed.

Lemma apply_rules_app rs1 rs2 t :
  apply_rules (rs1 ++ rs2) t = apply_rules rs2 (apply_rules rs1 t).
Proof. apply foldl_app. Qed.

(** The script's chain of assignments is the rule list applied in order. *)
Lemma transform_rules t : transform t = apply_rules RULES t.
Proof. done. Qed.

Lemma nonempty_spec (s : text) : nonempty s = true ↔ s ≠ [].
Proof. by destruct s. Qed.

Lemma compatible_spec rs :
  compatible rs = true →
  Forall (λ q, q.1 ≠ []) rs ∧
  ∀ q r, q ∈ rs → r ∈ rs → overlap_free q.1 r.2 = true.
Proof.
  unfold compatible. rewrite forallb_forall. intros H. split.
  - apply Forall_forall. intros q Hq%list_elem_of_In.
    apply H, andb_true_iff in Hq as [Hq _]. by apply nonempty_spec.
  - intros q r Hq%list_elem_of_In Hr%list_elem_of_In.
    apply H, andb_true_iff in Hr as [_ Hr].
    rewrite forallb_forall in Hr. by apply (Hr q).
Qed.

(** Rules whose literals are all absent leave the text alone. *)
Lemma apply_rules_absent rs t :
  Forall (λ q, q.1 ≠ []) rs →
  Forall (λ q, ¬ occurs q.1 t) rs →
  apply_rules rs t = t.
Proof.
  induction rs as [|r rs IH]; [done|].
  intros [Hr Hne]%Forall_cons [Habs Hrs]%Forall_cons.
  rewrite apply_rules_cons. unfold apply_rule.
  rewrite replace_absent by done. by apply IH.
Qed.

(** Running the rules [todo] removes their search literals and keeps
    absent the ones of the rules [past] that ran before. *)
Lemma apply_rules_removes todo : ∀ past t,
  Forall (λ q, q.1 ≠ []) (past ++ todo) →
  (∀ q r, q ∈ past ++ todo → r ∈ todo → overlap_free q.1 r.2 = true) →
  Forall (λ q, ¬ occurs q.1 t) past →
  Forall (λ q, ¬ occurs q.1 (apply_rules todo t)) (past ++ todo).
Proof.
  induction todo as [|r todo IH]; intros past t Hne Hfree Habs.
  - by rewrite app_nil_r.
  - rewrite apply_rules_cons, (cons_middle r past todo), app_assoc.
    rewrite (cons_middle r past todo), app_assoc in Hne.
    assert (r.1 ≠ []) as Hr.
    { rewrite Forall_forall in Hne. apply Hne. set_solver. }
    apply IH; [done | |].
    + intros q r' Hq Hr'. apply Hfree; [|by apply elem_of_cons; right].
      rewrite (cons_middle r past todo), app_assoc. done.
    + apply Forall_app. split.
      * rewrite Forall_forall in Habs |- *. intros q Hq.
        apply replace_keeps_absent; [done | | | by apply Habs].
        -- rewrite Forall_forall in Hne. apply Hne. set_solver.
        -- apply Hfree; set_solver.
      * apply Forall_singleton. apply replace_removes; [done|].
        apply Hfree; set_solver.
Qed.

(** After a compatible rule list has run, none of its search literals
    is left. *)
Lemma apply_rules_clean rs t :
  compatible rs = true →
  Forall (λ q, ¬ occurs q.1 (apply_rules rs t)) rs.
Proof.
  intros [Hne Hfree]%compatible_spec.
  by apply (apply_rules_removes rs [] t).
Qed.

Lemma apply_rules_idempotent rs t :
  compatible rs = true →
  apply_rules rs (apply_rules rs t) = apply_rules rs t.
Proof.
  intros Hc. apply apply_rules_absent.
  - by apply compatible_spec.
  - by apply apply_rules_clean.
Qed.

Lemma RULES_compatible : compatible RULES = true.
Proof. vm_compute. reflexivity. Qed.

Lemma RULES_unbordered : forallb (λ r, unbordered r.1) RULES = true.
Proof. vm_compute. reflexivity. Qed.

Lemma RULES_nonempty r : r ∈ RULES → r.1 ≠ [].
Proof.
  intros Hr. pose proof (compatible_spec _ RULES_compatible) as [H _].
  rewrite Forall_forall in H. by apply H.
Qed.

End rule_lists.

(** ** UTF-8 *)

Section utf8.
Local Open Scope Z_scope.

Lemma byte_val_range b : 0 <= byte_val b < 256.
Proof.
  unfold byte_val. pose proof (Byte.to_N_bounded b) as H. lia.
Qed.

Lemma byte_of_val b : byte_of (byte_val b) = b.
Proof. unfold byte_of, byte_val. by rewrite N2Z.id, Byte.of_to_N. Qed.

Lemma is_cont_spec b : is_cont b = true → 0 <= cont_bits b < 64.
Proof. unfold is_cont, cont_bits. lia. Qed.

Lemma cont_bits_byte b : byte_of (0x80 + cont_bits b) = b.
Proof.
  unfold cont_bits. replace (0x80 + (byte_val b - 0x80)) with (byte_val b) by lia.
  apply byte_of_val.
Qed.

(** One step of the decoder: the code point read and the octets left. *)
Lemma utf8_decode_step bs t :
  utf8_decode bs = Some t →
  bs = [] ∧ t = [] ∨
  ∃ c enc rest t',
    bs = enc ++ rest ∧ t = c :: t' ∧ enc ≠ [] ∧
    utf8_decode rest = Some t' ∧
    scalar c = true ∧ utf8_encode_cp c = Some enc.
Proof.
  destruct bs as [|b0 r0]; [intros [= <-]; by left|]. intros H. right.
  cbn [utf8_decode] in H. pose proof (byte_val_range b0) as R0.
  destruct (byte_val b0 <? 0x80) eqn:E1.
  { apply fmap_Some in H as (t' & Ht' & ->).
    exists (byte_val b0), [b0], r0, t'. repeat split; try done.
    - unfold scalar, is_surrogate. lia.
    - unfold utf8_encode_cp.
      replace (byte_val b0 <? 0) with false by lia.
      by rewrite E1, byte_of_val. }
  destruct (byte_val b0 <? 0xC0) eqn:E2; [done|].
  destruct (byte_val b0 <? 0xE0) eqn:E3.
  { destruct r0 as [|b1 r1]; [done|].
    destruct (is_cont b1) eqn:C1; [|done].
    apply is_cont_spec in C1 as R1.
    set (c := (byte_val b0 - 0xC0) * 64 + cont_bits b1) in *.
    destruct (0x80 <=? c) eqn:E4; [|done]. cbn [andb] in H.
    apply fmap_Some in H as (t' & Ht' & ->).
    exists c, [b0; b1], r1, t'. repeat split; try done.
    - unfold scalar, is_surrogate. lia.
    - unfold utf8_encode_cp.
      replace (c <? 0) with false by lia.
      replace (c <? 0x80) with false by lia.
      replace (c <? 0x800) with true by lia.
      replace (c / 64) with (byte_val b0 - 0xC0)
        by (subst c; Z.div_mod_to_equations; lia).
      replace (c mod 64) with (cont_bits b1)
        by (subst c; Z.div_mod_to_equations; lia).
      rewrite cont_bits_byte.
      replace (0xC0 + (byte_val b0 - 0xC0)) with (byte_val b0) by lia.
      by rewrite byte_of_val. }
  destruct (byte_val b0 <? 0xF0) eqn:E4.
  { destruct r0 as [|b1 [|b2 r2]]; [done..|].
    destruct (is_cont b1) eqn:C1; [|done].
    destruct (is_cont b2) eqn:C2; [|done].
    apply is_cont_spec in C1 as R1. apply is_cont_spec in C2 as R2.
    set (c := (byte_val b0 - 0xE0) * 4096 + cont_bits b1 * 64 + cont_bits b2)
      in *.
    destruct (0x800 <=? c) eqn:E5; [|done].
    destruct (is_surrogate c) eqn:E6; [done|]. cbn [andb negb] in H.
    apply fmap_Some in H as (t' & Ht' & ->).
    exists c, [b0; b1; b2], r2, t'. repeat split; try done.
    - unfold scalar. rewrite E6. lia.
    - unfold utf8_encode_cp. rewrite E6.
      replace (c <? 0) with false by lia.
      replace (c <? 0x80) with false by lia.
      replace (c <? 0x800) with false by lia.
      replace (c <? 0x10000) with true by lia.
      replace (c / 4096) with (byte_val b0 - 0xE0)
        by (subst c; Z.div_mod_to_equations; lia).
      replace ((c / 64) mod 64) with (cont_bits b1)
        by (subst c; Z.div_mod_to_equations; lia).
      replace (c mod 64) with (cont_bits b2)
        by (subst c; Z.div_mod_to_equations; lia).
      rewrite !cont_bits_byte.
      replace (0xE0 + (byte_val b0 - 0xE0)) with (byte_val b0) by lia.
      by rewrite byte_of_val. }
  destruct (byte_val b0 <? 0xF8) eqn:E5; [|done].
  destruct r0 as [|b1 [|b2 [|b3 r3]]]; [done..|].
  destruct (is_cont b1) eqn:C1; [|done].
  destruct (is_cont b2) eqn:C2; [|done].
  destruct (is_cont b3) eqn:C3; [|done].
  apply is_cont_spec in C1 as R1. apply is_cont_spec in C2 as R2.
  apply is_cont_spec in C3 as R3.
  set (c := (byte_val b0 - 0xF0) * 262144 + cont_bits b1 * 4096
            + cont_bits b2 * 64 + cont_bits b3) in *.
  destruct (0x10000 <=? c) eqn:E6; [|done].
  destruct (c <=? 0x10FFFF) eqn:E7; [|done]. cbn [andb] in H.
  apply fmap_Some in H as (t' & Ht' & ->).
  exists c, [b0; b1; b2; b3], r3, t'. repeat split; try done.
  - unfold scalar, is_surrogate. lia.
  - unfold utf8_encode_cp. rewrite E7.
    replace (c <? 0) with false by lia.
    replace (c <? 0x80) with false by lia.
    replace (c <? 0x800) with false by lia.
    replace (c <? 0x10000) with false by lia.
    replace (c / 262144) with (byte_val b0 - 0xF0)
      by (subst c; Z.div_mod_to_equations; lia).
    replace ((c / 4096) mod 64) with (cont_bits b1)
      by (subst c; Z.div_mod_to_equations; lia).
    replace ((c / 64) mod 64) with (cont_bits b2)
      by (subst c; Z.div_mod_to_equations; lia).
    replace (c mod 64) with (cont_bits b3)
      by (subst c; Z.div_mod_to_equations; lia).
    rewrite !cont_bits_byte.
    replace (0xF0 + (byte_val b0 - 0xF0)) with (byte_val b0) by lia.
    by rewrite byte_of_val.
Qed.

(** Induction along the decoder. *)
Lemma utf8_decode_ind (P : bytes → text → Prop) :
  P [] [] →
  (∀ c enc rest t',
     scalar c = true → utf8_encode_cp c = Some enc →
     utf8_decode rest = Some t' → P rest t' → P (enc ++ rest) (c :: t')) →
  ∀ bs t, utf8_decode bs = Some t → P bs t.
Proof.
  intros Hnil Hstep bs.
  remember (length bs) as n eqn:Hn. revert bs Hn.
  induction n as [n IH] using lt_wf_ind. intros bs Hn t Hd.
  apply utf8_decode_step in Hd
    as [[-> ->]|(c & enc & rest & t' & -> & -> & Hne & Hd & Hc & He)];
    [done|].
  apply Hstep; [done..|]. apply (IH (length rest)); [|done..].
  subst n. rewrite length_app. destruct enc; [done | simpl; lia].
Qed.


(** Encoding gives back the octets that were decoded. *)
Lemma utf8_decode_encode bs t :
  utf8_decode bs = Some t → utf8_encode t = Some bs.
Proof.
  revert bs t. apply utf8_decode_ind; [done|].
  intros c enc rest t' _ He _ IH. cbn [utf8_encode].
  by rewrite He, IH.
Qed.



End utf8.

(** ** [replace] keeps scalar text scalar *)






(** ** Reading the source archive *)

Section zip_read.
Import Zip.
Implicit Types (src : list member) (m : member) (name : text).

Lemma RealGetContents_snoc src m :
  RealGetContents (src ++ [m]) =
  {| filelist := filelist (RealGetContents src) ++ [m];
     NameToInfo := <[name_of m := m]> (NameToInfo (RealGetContents src)) |}.
Proof. unfold RealGetContents. by rewrite foldl_app. Qed.

Lemma filelist_RealGetContents src : filelist (RealGetContents src) = src.
Proof.
  induction src as [|m src IH] using rev_ind; [done|].
  by rewrite RealGetContents_snoc; simpl; rewrite IH.
Qed.

Lemma last_named_snoc name src m :
  last_named name (src ++ [m]) =
  if decide (name_of m = name) then Some m else last_named name src.
Proof.
  unfold last_named. rewrite filter_app, filter_cons, filter_nil.
  case_decide; [by rewrite last_snoc | by rewrite app_nil_r].
Qed.

(** Looking a name up gives the last entry that bears it. *)
Lemma getinfo_last_named src name :
  getinfo (RealGetContents src) name = last_named name src.
Proof.
  unfold getinfo. induction src as [|m src IH] using rev_ind; [done|].
  rewrite RealGetContents_snoc, last_named_snoc. simpl.
  rewrite lookup_insert. by case_decide.
Qed.

Lemma last_named_Some name src m :
  last_named name src = Some m → m ∈ src ∧ name_of m = name.
Proof.
  unfold last_named. intros H%last_Some_elem_of.
  apply list_elem_of_filter in H as [H1 H2]. done.
Qed.

Lemma last_named_is_Some src m : m ∈ src → is_Some (last_named (name_of m) src).
Proof.
  intros Hm. unfold last_named. apply last_is_Some.
  intros H. eapply (filter_nil_not_elem_of _ _ m); [exact H | done | done].
Qed.

(** Where names are unique, the last entry of a name is the only one. *)
Lemma last_named_unique src i m :
  NoDup (names src) → src !! i = Some m → last_named (name_of m) src = Some m.
Proof.
  intros Hnd Hi.
  destruct (last_named_is_Some src m) as [m' Hm'];
    [by eapply list_elem_of_lookup_2|].
  rewrite Hm'. f_equal.
  apply last_named_Some in Hm' as [[j Hj]%list_elem_of_lookup_1 Hn].
  assert (i = j) as ->; [|congruence].
  apply (NoDup_lookup (names src) i j (name_of m)); [done|..];
    unfold names; rewrite list_lookup_fmap.
  - by rewrite Hi.
  - rewrite Hj. simpl. by f_equal.
Qed.

Lemma read_last_named src name :
  read (RealGetContents src) name = payload <$> last_named name src.
Proof. unfold read. by rewrite getinfo_last_named. Qed.

(** With unique names, reading an entry by its name gives its own data. *)
Lemma read_unique src i m :
  NoDup (names src) → src !! i = Some m →
  read (RealGetContents src) (name_of m) = Some (payload m).
Proof.
  intros Hnd Hi. by rewrite read_last_named, (last_named_unique src i m).
Qed.

(** An entry of the archive can always be read: no [KeyError]. *)
Lemma read_is_Some src m :
  m ∈ src → is_Some (read (RealGetContents src) (name_of m)).
Proof.
  intros Hm. rewrite read_last_named.
  destruct (last_named_is_Some src m Hm) as [m' ->]. done.
Qed.

End zip_read.

(** ** The loop *)

Section loop.
Import Zip.
Variables (zin : ZipFile) (h : host).
Implicit Types (item : ZipInfo) (w : world) (out : list member).

Lemma appended_nil w : appended w [] = w.
Proof. destruct w. unfold appended. simpl. by rewrite app_nil_r. Qed.

Lemma appended_cons w m out :
  appended (appended w [m]) out = appended w (m :: out).
Proof. unfold appended. simpl. by rewrite <- app_assoc. Qed.

Lemma process_written item w :
  process zin h item w =
  match written zin h item with
  | inr m => (inr (), appended w [m])
  | inl e => (inl e, w)
  end.
Proof.
  unfold process, written, mbind, run_mbind, run_bind, or_raise.
  destruct (read zin (filename item)) as [content|]; [|done]. simpl.
  case_decide; [|done].
  destruct (utf8_decode content) as [xml|]; [|done]. simpl.
  destruct (utf8_encode (transform xml)) as [data|]; done.
Qed.

(** If every turn has something to write, the loop runs to its end and
    the destination receives these entries in order. *)
Lemma for_each_completes items out w :
  Forall2 (λ item m', written zin h item = inr m') items out →
  for_each items (process zin h) w = (inr (), appended w out).
Proof.
  intros H. revert w. induction H as [|item m' items out Hw _ IH]; intros w.
  - by rewrite appended_nil.
  - cbn [for_each]. unfold mbind, run_mbind, run_bind.
    by rewrite process_written, Hw, IH, appended_cons.
Qed.

(** The first turn that raises ends the loop; what was written before
    stays. *)
Lemma for_each_raises pre item post out e w :
  Forall2 (λ item m', written zin h item = inr m') pre out →
  written zin h item = inl e →
  for_each (pre ++ item :: post) (process zin h) w = (inl e, appended w out).
Proof.
  intros H He. revert w. induction H as [|x m' pre out Hw _ IH]; intros w.
  - simpl. unfold mbind, run_mbind, run_bind.
    by rewrite process_written, He, appended_nil.
  - cbn [for_each app]. unfold mbind, run_mbind, run_bind.
    by rewrite process_written, Hw, IH, appended_cons.
Qed.

Lemma written_dichotomy items :
  (∃ out, Forall2 (λ item m', written zin h item = inr m') items out) ∨
  (∃ pre item post out e,
     items = pre ++ item :: post ∧
     Forall2 (λ item m', written zin h item = inr m') pre out ∧
     written zin h item = inl e).
Proof.
  induction items as [|x items IH].
  - left. by exists [].
  - destruct (written zin h x) as [e|m'] eqn:Hx.
    + right. by exists [], x, items, [], e.
    + destruct IH as [[out H]|(pre & item & post & out & e & -> & H & He)].
      * left. exists (m' :: out). by apply Forall2_cons.
      * right. exists (x :: pre), item, post, (m' :: out), e.
        split_and!; [done | by apply Forall2_cons | done].
Qed.

Lemma written_name item m' :
  written zin h item = inr m' → name_of m' = filename item.
Proof.
  unfold written. intros H.
  repeat case_match; simplify_eq; done.
Qed.

End loop.

(** ** The run as a whole *)

Section run.
Import Zip.
Implicit Types (h : host) (src out : list member) (m : member) (w : world).

(** The entry the loop writes for the source entry [m]. *)
Local Abbreviation writes h src :=
  (λ m m', written (RealGetContents src) h (info m) = inr m').

Lemma sanitize_unfold h src :
  sanitize h src =
  match for_each (info <$> src) (process (RealGetContents src) h) start with
  | (inr _, w) =>
    (inr (), {| zout := zout w; stdout := stdout w ++ [completion_notice] |})
  | (inl e, w) => (inl e, w)
  end.
Proof.
  unfold sanitize, infolist. rewrite filelist_RealGetContents.
  unfold mbind, run_mbind, run_bind.
  by destruct (for_each _ _ start) as [[e|[]] w].
Qed.

Lemma sanitize_completes h src out :
  Forall2 (writes h src) src out →
  sanitize h src = (inr (), {| zout := out; stdout := [completion_notice] |}).
Proof.
  intros H. rewrite sanitize_unfold.
  rewrite (for_each_completes _ _ _ out); [done|].
  by apply Forall2_fmap_l.
Qed.

Lemma sanitize_raises h pre m post out e :
  Forall2 (writes h (pre ++ m :: post)) pre out →
  written (RealGetContents (pre ++ m :: post)) h (info m) = inl e →
  sanitize h (pre ++ m :: post) = (inl e, {| zout := out; stdout := [] |}).
Proof.
  intros H He. rewrite sanitize_unfold, fmap_app, fmap_cons.
  rewrite (for_each_raises _ _ _ _ _ out e); [done | | done].
  by apply Forall2_fmap_l.
Qed.

(** A run either writes one entry per source entry and prints the
    notice, or stops at the first entry whose turn raises. *)
Lemma sanitize_cases h src :
  (∃ out, Forall2 (writes h src) src out ∧
     sanitize h src =
       (inr (), {| zout := out; stdout := [completion_notice] |})) ∨
  (∃ pre m post out e,
     src = pre ++ m :: post ∧ Forall2 (writes h src) pre out ∧
     written (RealGetContents src) h (info m) = inl e ∧
     sanitize h src = (inl e, {| zout := out; stdout := [] |})).
Proof.
  destruct (written_dichotomy (RealGetContents src) h (info <$> src))
    as [[out H]|(pre & item & post & out & e & Hs & H & He)].
  - left. exists out. apply Forall2_fmap_l in H.
    split; [done | by apply sanitize_completes].
  - right. apply fmap_app_inv in Hs as (pre' & tl & -> & Hs & ->).
    symmetry in Hs. apply fmap_cons_inv in Hs as (m & post' & -> & -> & ->).
    apply Forall2_fmap_l in H.
    exists pre', m, post', out, e. split_and!; [done..|].
    by apply sanitize_raises.
Qed.

Lemma sanitize_ok_inv h src w :
  sanitize h src = (inr (), w) →
  Forall2 (writes h src) src (zout w) ∧ stdout w = [completion_notice].
Proof.
  destruct (sanitize_cases h src)
    as [(out & H & ->)|(pre & m & post & out & e & _ & _ & _ & ->)];
    [|done].
  by intros [= <-].
Qed.


(** Names are kept turn by turn. *)
Lemma writes_names h src (l out : list member) :
  Forall2 (writes h src) l out → names out = names l.
Proof.
  induction 1 as [|m m' l out Hm _ IH]; [done|].
  unfold names in *. rewrite !fmap_cons, IH. f_equal.
  by apply written_name in Hm.
Qed.

(** What is written for an entry that is not [content.xml]. *)
Lemma written_other h src m :
  m ∈ src → name_of m ≠ content_xml →
  ∃ m0, last_named (name_of m) src = Some m0 ∧
        written (RealGetContents src) h (info m)
        = inr {| info := info m; payload := payload m0 |}.
Proof.
  intros Hm Hn. destruct (last_named_is_Some src m Hm) as [m0 Hm0].
  exists m0. split; [done|]. unfold written.
  change (filename (info m)) with (name_of m).
  rewrite read_last_named, Hm0.
  change (payload <$> Some m0) with (Some (payload m0)). cbv beta iota.
  by rewrite decide_False.
Qed.

(** What is written for an entry called [content.xml]. *)
Lemma written_target h src m :
  m ∈ src → name_of m = content_xml →
  ∃ m0, last_named content_xml src = Some m0 ∧
        written (RealGetContents src) h (info m) =
        match utf8_decode (payload m0) with
        | None => inl UnicodeDecodeError
        | Some xml =>
          match utf8_encode (transform xml) with
          | None => inl UnicodeEncodeError
          | Some data =>
            inr {| info := fresh_info h content_xml; payload := data |}
          end
        end.
Proof.
  intros Hm Hn. destruct (last_named_is_Some src m Hm) as [m0 Hm0].
  rewrite Hn in Hm0. exists m0. split; [done|]. unfold written.
  change (filename (info m)) with (name_of m).
  rewrite read_last_named, Hn, Hm0.
  change (payload <$> Some m0) with (Some (payload m0)). cbv beta iota.
  by rewrite decide_True.
Qed.

End run.

(** ** Counting across a replacement *)

Lemma occurrences_zero (p t : text) : occurrences p t = 0 ↔ ¬ occurs p t.
Proof.
  rewrite <- infixb_false. induction t as [|c t IH]; simpl.
  - rewrite orb_false_r. destruct (prefixb p []); [split; [lia|done] | done].
  - rewrite orb_false_iff, <- IH.
    destruct (prefixb p (c :: t)); [split; [lia | by intros [? _]] |].
    simpl. split; [done | by intros [_ ?]].
Qed.

Lemma occurrences_nil (p : text) : p ≠ [] → occurrences p [] = 0.
Proof. by destruct p. Qed.

Section counting_around.
Variables p r : text.
Hypothesis p_ne : p ≠ [].
Hypothesis free : overlap_free p r = true.

Lemma occurrences_behind r' b :
  r' `suffix_of` r → occurrences p (r' ++ b) = occurrences p b.
Proof using Type*.
  induction r' as [|c r' IH]; intros Hr; [done|].
  change ((c :: r') ++ b) with (c :: (r' ++ b)). cbn [occurrences].
  rewrite IH by (by eapply suffix_cons_l).
  replace (prefixb p (c :: r' ++ b)) with false; [done|].
  symmetry. apply prefixb_false. intros H.
  destruct (overlap_free_r p r p_ne free (c :: r')) as [H1 H2]; [done..|].
  apply (prefix_app_cases p (c :: r') b) in H as [H|(p' & -> & _ & _)].
  - by destruct H2.
  - destruct H1. by apply prefix_app_r.
Qed.

(** The occurrences of [p] in [a ++ r ++ b] are those in [a] and those
    in [b]. *)
Lemma occurrences_around a b :
  occurrences p (a ++ r ++ b) = occurrences p a + occurrences p b.
Proof using Type*.
  induction a as [|c a IH].
  - rewrite occurrences_nil by done. by apply (occurrences_behind r).
  - change ((c :: a) ++ r ++ b) with (c :: (a ++ r ++ b)).
    cbn [occurrences]. rewrite IH.
    replace (prefixb p (c :: a ++ r ++ b)) with (prefixb p (c :: a)); [lia|].
    destruct (prefixb p (c :: a)) eqn:E; symmetry.
    + apply prefixb_spec. apply prefixb_spec in E.
      by apply (prefix_app_r p (c :: a) (r ++ b)).
    + apply prefixb_false. apply prefixb_false in E. intros H.
      apply (prefix_app_cases p (c :: a) (r ++ b)) in H
        as [H|(p' & Hp & Hne & H)]; [done|].
      destruct (overlap_free_p p r p_ne free p') as [H1 H2];
        [done | by exists (c :: a) |].
      apply prefix_app_cases in H as [H|(p'' & -> & _ & _)].
      * by destruct H1.
      * destruct H2. by apply prefix_app_r.
Qed.

Lemma occurrences_join parts :
  occurrences p (join r parts) = sum_list (occurrences p <$> parts).
Proof using Type*.
  induction parts as [|g [|g' gs] IH].
  - by apply occurrences_nil.
  - simpl. lia.
  - rewrite join_cons, occurrences_around, IH. done.
Qed.

End counting_around.

(** A replacement whose two literals cannot overlap [p] neither removes
    nor adds an occurrence of [p]. *)
Lemma occurrences_replace (old new p t : text) :
  old ≠ [] → p ≠ [] →
  overlap_free p old = true → overlap_free p new = true →
  occurrences p (replace old new t) = occurrences p t.
Proof.
  intros Hold Hp Ho Hn.
  rewrite <- (join_gaps old Hold t) at 2.
  rewrite replace_join by done.
  by rewrite !occurrences_join.
Qed.

Lemma occurrences_apply_rules (rs : list rule) (p t : text) :
  p ≠ [] →
  Forall (λ r : rule, r.1 ≠ [] ∧ overlap_free p r.1 = true
                      ∧ overlap_free p r.2 = true) rs →
  occurrences p (apply_rules rs t) = occurrences p t.
Proof.
  intros Hp. revert t. induction rs as [|r rs IH]; intros t Hrs; [done|].
  apply Forall_cons in Hrs as [(H1 & H2 & H3) Hrs].
  rewrite apply_rules_cons, IH by done.
  by apply occurrences_replace.
Qed.

(** ** An occurrence of an unbordered literal, whatever surrounds it *)

Lemma replace_around (old new a b : text) :
  old ≠ [] → unbordered old = true →
  replace old new (a ++ old ++ b)
  = replace old new a ++ new ++ replace old new b.
Proof.
  intros Hold Hub.
  induction a as [| a IH | c a Hmiss IH] using (scan_ind old Hold).
  - by rewrite app_nil_l, replace_nil, replace_hit.
  - by rewrite <- !app_assoc, !replace_hit, IH, <- !app_assoc.
  - change ((c :: a) ++ old ++ b) with (c :: (a ++ old ++ b)).
    rewrite (replace_miss old new Hold c a Hmiss).
    rewrite replace_miss, IH; [done..|].
    apply prefixb_false. apply prefixb_false in Hmiss. intros H.
    apply (prefix_app_cases old (c :: a) (old ++ b)) in H
      as [H|(p' & Hp & Hne & H)]; [done|].
    apply (unbordered_spec old Hold Hub p'); [done | |].
    + rewrite Hp. simpl. by apply suffix_app_r.
    + apply prefix_app_cases in H as [H|(p'' & Hp'' & Hne'' & _)]; [done|].
      apply (f_equal length) in Hp. rewrite Hp'' in Hp.
      rewrite !length_app in Hp. simpl in Hp. lia.
Qed.

(** ** Archives with unique names *)

Section unique_names.
Import Zip.
Variables (h : host) (src : list member).
Hypothesis unique : NoDup (names src).

Lemma written_unique_other i m :
  src !! i = Some m → name_of m ≠ content_xml →
  written (RealGetContents src) h (info m) = inr m.
Proof using Type*.
  intros Hi Hn.
  destruct (written_other h src m) as (m0 & Hm0 & ->);
    [by eapply list_elem_of_lookup_2 | done |].
  rewrite (last_named_unique src i m) in Hm0 by done.
  injection Hm0 as <-. by destruct m.
Qed.

Lemma written_unique_target i m :
  src !! i = Some m → name_of m = content_xml →
  written (RealGetContents src) h (info m) =
  match utf8_decode (payload m) with
  | None => inl UnicodeDecodeError
  | Some xml =>
    match utf8_encode (transform xml) with
    | None => inl UnicodeEncodeError
    | Some data => inr {| info := fresh_info h content_xml; payload := data |}
    end
  end.
Proof using Type*.
  intros Hi Hn.
  destruct (written_target h src m) as (m0 & Hm0 & ->);
    [by eapply list_elem_of_lookup_2 | done |].
  rewrite <- Hn, (last_named_unique src i m) in Hm0 by done.
  by injection Hm0 as <-.
Qed.


End unique_names.

(** ** The run completes unless [content.xml] cannot be decoded *)




(** * The claims *)

Section claims.
Import Zip.

(** C1: in an archive with unique entry names, the entry called
    [content.xml] comes out as its octets decoded as UTF-8, put through
    the whole rule list in order (each rule on the output of the one
    before), and encoded again as UTF-8. *)
Theorem target_entry_transformed h src w i m :
  NoDup (names src) →
  sanitize h src = (inr (), w) →
  src !! i = Some m →
  name_of m = content_xml →
  ∃ xml data,
    utf8_decode (payload m) = Some xml ∧
    utf8_encode (apply_rules RULES xml) = Some data ∧
    zout w !! i = Some {| info := fresh_info h content_xml; payload := data |}.
Proof.
  intros Hnd [Hw _]%sanitize_ok_inv Hi Hn.
  destruct (Forall2_lookup_l _ _ _ _ _ Hw Hi) as (m' & Hi' & Hm').
  rewrite (written_unique_target h src Hnd i m Hi Hn) in Hm'.
  destruct (utf8_decode (payload m)) as [xml|]; [|done].
  destruct (utf8_encode (transform xml)) as [data|] eqn:Hd; [|done].
  injection Hm' as <-. by exists xml, data.
Qed.

Lemma target_entry_transformed_witness :
  ∃ xml data,
    utf8_decode (utf8 "<p>VS 30062025: 90<text:s/>000,00 Kč + 90<text:s/>000,00 Kč</p>")
      = Some xml ∧
    utf8_encode (apply_rules RULES xml) = Some data ∧
    zout (sanitize host0 demo_archive).2 !! 1
      = Some {| info := fresh_info host0 content_xml; payload := data |}.
Proof.
  apply (target_entry_transformed host0 demo_archive
           (sanitize host0 demo_archive).2 1
           (entry "content.xml"
              (utf8 "<p>VS 30062025: 90<text:s/>000,00 Kč + 90<text:s/>000,00 Kč</p>"))).
  - apply (bool_decide_unpack _). vm_compute. reflexivity.
  - vm_compute. reflexivity.
  - reflexivity.
  - vm_compute. reflexivity.
Defined.

(** C2: a completed run writes one entry per source entry, under the
    same name: the names of the destination are those of the source,
    each as often as in the source, none added and none dropped. *)
Theorem names_complete h src w :
  sanitize h src = (inr (), w) →
  (∀ n, n ∈ names (zout w) ↔ n ∈ names src) ∧
  names (zout w) ≡ₚ names src ∧
  length (zout w) = length src.
Proof.
  intros [Hw _]%sanitize_ok_inv.
  pose proof (writes_names _ _ _ _ Hw) as Hn.
  split_and!.
  - intros n. by rewrite Hn.
  - by rewrite Hn.
  - symmetry. by eapply Forall2_length.
Qed.

Lemma names_complete_witness :
  (∀ n, n ∈ names (zout (sanitize host0 demo_archive).2)
        ↔ n ∈ names demo_archive) ∧
  names (zout (sanitize host0 demo_archive).2) ≡ₚ names demo_archive ∧
  length (zout (sanitize host0 demo_archive).2) = length demo_archive.
Proof.
  apply (names_complete host0 demo_archive). vm_compute. reflexivity.
Defined.



(** C9: a completed run keeps the order: the names of the destination,
    read in order, are the names of the source read in order. *)
Theorem order_preserved h src w :
  sanitize h src = (inr (), w) →
  names (zout w) = names src.
Proof.
  intros [Hw _]%sanitize_ok_inv. by eapply writes_names.
Qed.

Lemma order_preserved_witness :
  names (zout (sanitize host0 demo_archive).2) = names demo_archive.
Proof.
  apply (order_preserved host0 demo_archive). vm_compute. reflexivity.
Defined.

(** C4: whichever rule of the script and whatever the text, if the
    search literal starts at [N] positions of the text, the text is
    [N + 1] stretches free of the literal with the literal between them,
    the rule returns the same stretches with the replacement literal
    between them, and the literal starts nowhere in the result. In
    particular the amount literal is gone once the amount rule has run,
    on any text and so at the end of the transformation, where it runs
    last. *)
Theorem all_occurrences_replaced r t :
  r ∈ RULES →
  (∃ parts,
     length parts = S (occurrences r.1 t) ∧
     Forall (λ g, ¬ occurs r.1 g) parts ∧
     t = join r.1 parts ∧
     apply_rule r t = join r.2 parts ∧
     occurrences r.1 (apply_rule r t) = 0) ∧
  ¬ occurs amount_old (replace amount_old amount_new t) ∧
  ¬ occurs amount_old (transform t).
Proof.
  intros Hr.
  pose proof (compatible_spec _ RULES_compatible) as [_ Hfree].
  pose proof (RULES_nonempty r Hr) as Hne.
  assert (unbordered r.1 = true) as Hub.
  { pose proof RULES_unbordered as H. rewrite forallb_forall in H.
    by apply (H r), list_elem_of_In. }
  split.
  - exists (gaps r.1 t). unfold apply_rule. split_and!.
    + by apply gaps_length.
    + by apply gaps_clean.
    + by rewrite join_gaps.
    + by apply replace_join.
    + apply occurrences_zero, replace_removes; [done|]. by apply Hfree.
  - assert (overlap_free amount_old amount_new = true) as Ham
      by (apply (Hfree (amount_old, amount_new) (amount_old, amount_new));
          apply list_elem_of_In; simpl; tauto).
    split; [by apply replace_removes|].
    change (transform t)
      with (replace amount_old amount_new (apply_rules (take 10 RULES) t)).
    by apply replace_removes.
Qed.

Lemma all_occurrences_replaced_witness :
  (∃ parts,
     length parts = S (occurrences amount_old amount_twice) ∧
     Forall (λ g, ¬ occurs amount_old g) parts ∧
     amount_twice = join amount_old parts ∧
     apply_rule (amount_old, amount_new) amount_twice
     = join amount_new parts ∧
     occurrences amount_old (apply_rule (amount_old, amount_new) amount_twice)
     = 0) ∧
  ¬ occurs amount_old (replace amount_old amount_new amount_twice) ∧
  ¬ occurs amount_old (transform amount_twice).
Proof.
  apply (all_occurrences_replaced (amount_old, amount_new) amount_twice).
  apply list_elem_of_In. simpl. tauto.
Defined.



(** C6: the text transformation is idempotent: running the rule list on
    a text it has already transformed changes nothing. *)
Theorem transform_idempotent t : transform (transform t) = transform t.
Proof.
  rewrite !transform_rules. apply apply_rules_idempotent, RULES_compatible.
Qed.






(** C10: the VS rule takes the bare digits wherever they stand. Whatever
    text [a] precedes and whatever text [b] follows an occurrence of
    [30062025], the occurrence becomes [{{VS}}] and [a] and [b] are
    treated on their own; the seven rules that run before the VS rule
    neither use up nor produce an occurrence, so every occurrence of the
    entry's text reaches the VS rule; and none is left, neither after the
    VS rule nor at the end of the transformation. *)
Theorem vs_rule_unanchored :
  (∀ a b, replace vs_old vs_new (a ++ vs_old ++ b)
          = replace vs_old vs_new a ++ vs_new ++ replace vs_old vs_new b) ∧
  (∀ t, transform t
        = apply_rules (drop 8 RULES)
            (replace vs_old vs_new (apply_rules (take 7 RULES) t))) ∧
  (∀ t, occurrences vs_old (apply_rules (take 7 RULES) t)
        = occurrences vs_old t) ∧
  (∀ t, occurrences vs_old (replace vs_old vs_new t) = 0) ∧
  (∀ t, occurrences vs_old (transform t) = 0).
Proof.
  pose proof (compatible_spec _ RULES_compatible) as [Hne Hfree].
  assert ((vs_old, vs_new) ∈ RULES) as Hvs
    by (apply list_elem_of_In; simpl; tauto).
  split_and!.
  - intros a b. apply replace_around; [done | by vm_compute].
  - done.
  - intros t. apply occurrences_apply_rules; [done|].
    apply Forall_forall. intros r Hr.
    assert (forallb (λ r : rule, nonempty r.1 && overlap_free vs_old r.1
                                 && overlap_free vs_old r.2)
              (take 7 RULES) = true) as H by (vm_compute; reflexivity).
    rewrite forallb_forall in H. apply list_elem_of_In, H in Hr.
    apply andb_true_iff in Hr as [[H1 H2]%andb_true_iff H3].
    by apply nonempty_spec in H1.
  - intros t. apply occurrences_zero, replace_removes; [done|].
    by apply (Hfree (vs_old, vs_new) (vs_old, vs_new)).
  - intros t. apply occurrences_zero. rewrite transform_rules.
    pose proof (apply_rules_clean RULES t RULES_compatible) as H.
    rewrite Forall_forall in H. by apply (H (vs_old, vs_new)).
Qed.

(** The digits inside a longer number and inside an attribute value. *)
Example vs_rule_in_other_contexts :
  transform (lit "<a href='tel:+420130062025'>tel. 9300620251</a>")
  = lit "<a href='tel:+4201{{VS}}'>tel. 9{{VS}}1</a>".
Proof. vm_compute. reflexivity. Qed.

End claims.

(** * Further properties of the script *)

(** ** UTF-8, the other way round *)

Section utf8_back.
Local Open Scope Z_scope.

Lemma byte_val_of z : 0 <= z < 256 → byte_val (byte_of z) = z.
Proof.
  intros Hz. unfold byte_val, byte_of.
  destruct (Byte.of_N (Z.to_N z)) as [b|] eqn:E.
  - apply Byte.to_of_N in E. rewrite E. lia.
  - apply Byte.of_N_None_iff in E. lia.
Qed.

(** Decoding the octets of one code point gives the code point back. *)
Lemma utf8_decode_cp_app c enc rest :
  utf8_encode_cp c = Some enc →
  utf8_decode (enc ++ rest) = cons c <$> utf8_decode rest.
Proof.
  unfold utf8_encode_cp. intros H.
  destruct (Z.ltb_spec c 0); [done|].
  destruct (Z.ltb_spec c 0x80).
  { injection H as <-. cbn [app utf8_decode].
    rewrite byte_val_of by lia.
    by replace (c <? 0x80) with true by lia. }
  destruct (Z.ltb_spec c 0x800).
  { injection H as <-. cbn [app utf8_decode]. unfold is_cont, cont_bits.
    rewrite !byte_val_of by (Z.div_mod_to_equations; lia).
    replace (0xC0 + c / 64 <? 0x80) with false
      by (Z.div_mod_to_equations; lia).
    replace (0xC0 + c / 64 <? 0xC0) with false
      by (Z.div_mod_to_equations; lia).
    replace (0xC0 + c / 64 <? 0xE0) with true
      by (Z.div_mod_to_equations; lia).
    replace (0x80 <=? 0x80 + c mod 64) with true
      by (Z.div_mod_to_equations; lia).
    replace (0x80 + c mod 64 <? 0xC0) with true
      by (Z.div_mod_to_equations; lia).
    replace ((0xC0 + c / 64 - 0xC0) * 64 + (0x80 + c mod 64 - 0x80)) with c
      by (Z.div_mod_to_equations; lia).
    by replace (0x80 <=? c) with true by lia. }
  destruct (Z.ltb_spec c 0x10000).
  { destruct (is_surrogate c) eqn:Es; [done|].
    injection H as <-. cbn [app utf8_decode]. unfold is_cont, cont_bits.
    rewrite !byte_val_of by (Z.div_mod_to_equations; lia).
    replace (0xE0 + c / 4096 <? 0x80) with false
      by (Z.div_mod_to_equations; lia).
    replace (0xE0 + c / 4096 <? 0xC0) with false
      by (Z.div_mod_to_equations; lia).
    replace (0xE0 + c / 4096 <? 0xE0) with false
      by (Z.div_mod_to_equations; lia).
    replace (0xE0 + c / 4096 <? 0xF0) with true
      by (Z.div_mod_to_equations; lia).
    replace (0x80 <=? 0x80 + (c / 64) mod 64) with true
      by (Z.div_mod_to_equations; lia).
    replace (0x80 + (c / 64) mod 64 <? 0xC0) with true
      by (Z.div_mod_to_equations; lia).
    replace (0x80 <=? 0x80 + c mod 64) with true
      by (Z.div_mod_to_equations; lia).
    replace (0x80 + c mod 64 <? 0xC0) with true
      by (Z.div_mod_to_equations; lia).
    replace ((0xE0 + c / 4096 - 0xE0) * 4096
             + (0x80 + (c / 64) mod 64 - 0x80) * 64
             + (0x80 + c mod 64 - 0x80)) with c
      by (Z.div_mod_to_equations; lia).
    rewrite Es. by replace (0x800 <=? c) with true by lia. }
  destruct (Z.leb_spec c 0x10FFFF); [|done].
  injection H as <-. cbn [app utf8_decode]. unfold is_cont, cont_bits.
  rewrite !byte_val_of by (Z.div_mod_to_equations; lia).
  replace (0xF0 + c / 262144 <? 0x80) with false
    by (Z.div_mod_to_equations; lia).
  replace (0xF0 + c / 262144 <? 0xC0) with false
    by (Z.div_mod_to_equations; lia).
  replace (0xF0 + c / 262144 <? 0xE0) with false
    by (Z.div_mod_to_equations; lia).
  replace (0xF0 + c / 262144 <? 0xF0) with false
    by (Z.div_mod_to_equations; lia).
  replace (0xF0 + c / 262144 <? 0xF8) with true
    by (Z.div_mod_to_equations; lia).
  replace (0x80 <=? 0x80 + (c / 4096) mod 64) with true
    by (Z.div_mod_to_equations; lia).
  replace (0x80 + (c / 4096) mod 64 <? 0xC0) with true
    by (Z.div_mod_to_equations; lia).
  replace (0x80 <=? 0x80 + (c / 64) mod 64) with true
    by (Z.div_mod_to_equations; lia).
  replace (0x80 + (c / 64) mod 64 <? 0xC0) with true
    by (Z.div_mod_to_equations; lia).
  replace (0x80 <=? 0x80 + c mod 64) with true
    by (Z.div_mod_to_equations; lia).
  replace (0x80 + c mod 64 <? 0xC0) with true
    by (Z.div_mod_to_equations; lia).
  replace ((0xF0 + c / 262144 - 0xF0) * 262144
           + (0x80 + (c / 4096) mod 64 - 0x80) * 4096
           + (0x80 + (c / 64) mod 64 - 0x80) * 64
           + (0x80 + c mod 64 - 0x80)) with c
    by (Z.div_mod_to_equations; lia).
  replace (0x10000 <=? c) with true by lia.
  by replace (c <=? 0x10FFFF) with true by lia.
Qed.

Lemma utf8_encode_decode t bs :
  utf8_encode t = Some bs → utf8_decode bs = Some t.
Proof.
  revert bs; induction t as [|c t IH]; intros bs H.
  - by injection H as <-.
  - cbn [utf8_encode] in H.
    destruct (utf8_encode_cp c) as [enc|] eqn:Ec; [|done].
    destruct (utf8_encode t) as [rest|]; [|done].
    injection H as <-.
    by rewrite (utf8_decode_cp_app c enc rest Ec), (IH rest eq_refl).
Qed.

End utf8_back.

(** ** Rules that do not interfere *)

(** The scan walks over a stretch that the search literal cannot
    overlap. *)
Lemma replace_passes (old new x t : text) :
  old ≠ [] → overlap_free old x = true →
  replace old new (x ++ t) = x ++ replace old new t.
Proof.
  intros Hold Hfree.
  enough (∀ x', x' `suffix_of` x →
            replace old new (x' ++ t) = x' ++ replace old new t) as H
    by (by apply H).
  induction x' as [|c x' IH]; intros Hs; [done|].
  change ((c :: x') ++ t) with (c :: (x' ++ t)).
  rewrite replace_miss; [| done |].
  - rewrite IH; [done | by eapply suffix_cons_l].
  - apply prefixb_false. intros H.
    destruct (overlap_free_r old x Hold Hfree (c :: x')) as [H1 H2];
      [done..|].
    apply (prefix_app_cases old (c :: x') t) in H as [H|(p' & -> & _ & _)].
    + by destruct H2.
    + destruct H1. by apply prefix_app_r.
Qed.

(** Where [p] does not start, it does not start after another rule has
    rewritten what follows, if it cannot overlap that rule's
    replacement. *)
Lemma prefixb_replace_miss (p old new : text) c t :
  p ≠ [] → old ≠ [] → overlap_free p new = true →
  prefixb p (c :: t) = false →
  prefixb p (c :: replace old new t) = false.
Proof.
  intros Hp Hold Hfree Hmiss.
  rewrite replace_join by done.
  pose proof (join_gaps old Hold t) as Ht.
  pose proof (gaps_nonempty old t) as Hne.
  destruct (gaps old t) as [|g [|g' gs]]; [done | simpl in *; by subst g |].
  rewrite join_cons in Ht |- *.
  apply prefixb_false. apply prefixb_false in Hmiss. intros H.
  apply (prefix_app_cases p (c :: g) (new ++ join new (g' :: gs))) in H
    as [H|(p' & Hp' & Hne' & H)].
  - apply Hmiss. rewrite <- Ht.
    by apply (prefix_app_r p (c :: g) (old ++ join old (g' :: gs))).
  - destruct (overlap_free_p p new Hp Hfree p') as [H1 H2];
      [done | by exists (c :: g) |].
    apply prefix_app_cases in H as [H|(p'' & -> & _ & _)].
    + by destruct H1.
    + destruct H2. by apply prefix_app_r.
Qed.

(** Two rules that are apart can run in either order. *)
Lemma replace_comm (q r : rule) t :
  apart q r = true →
  replace q.1 q.2 (replace r.1 r.2 t) = replace r.1 r.2 (replace q.1 q.2 t).
Proof.
  destruct q as [s1 r1], r as [s2 r2]. unfold apart. simpl.
  rewrite !andb_true_iff, !nonempty_spec.
  intros [[[[[Hs1 Hs2] F12] F21] F1r] F2r].
  remember (length t) as n eqn:Hn. revert t Hn.
  induction n as [n IH] using lt_wf_ind. intros [|c t] Hn.
  { by rewrite !replace_nil. }
  destruct (prefixb s1 (c :: t)) eqn:E1.
  { apply prefixb_spec in E1 as [k Hk]. rewrite Hk.
    rewrite (replace_passes s2 r2 s1 k), !replace_hit by done.
    rewrite (replace_passes s2 r2 r1) by done. f_equal.
    apply (IH (length k)); [|done]. subst n. rewrite Hk, length_app.
    destruct s1; [done | simpl; lia]. }
  destruct (prefixb s2 (c :: t)) eqn:E2.
  { apply prefixb_spec in E2 as [k Hk]. rewrite Hk.
    rewrite (replace_passes s1 r1 s2 k), !replace_hit by done.
    rewrite (replace_passes s1 r1 r2) by done. f_equal.
    apply (IH (length k)); [|done]. subst n. rewrite Hk, length_app.
    destruct s2; [done | simpl; lia]. }
  rewrite (replace_miss s2 r2 Hs2 c t E2), (replace_miss s1 r1 Hs1 c t E1).
  rewrite !replace_miss; [| done | by apply prefixb_replace_miss
                          | done | by apply prefixb_replace_miss].
  f_equal. apply (IH (length t)); [subst n; simpl; lia | done].
Qed.

Lemma independent_spec (rs : list rule) :
  independent rs = true →
  ∀ q r, q ∈ rs → r ∈ rs → q = r ∨ apart q r = true.
Proof.
  unfold independent. rewrite forallb_forall.
  intros H q r Hq%list_elem_of_In Hr%list_elem_of_In.
  specialize (H q Hq). rewrite forallb_forall in H.
  apply H, orb_true_iff in Hr as [Hr|Hr]; [left | by right].
  by apply bool_decide_eq_true in Hr.
Qed.

(** Rules that are pairwise apart give the same text in any order. *)
Lemma apply_rules_perm (rs rs' : list rule) t :
  (∀ q r, q ∈ rs → r ∈ rs → q = r ∨ apart q r = true) →
  rs ≡ₚ rs' → apply_rules rs t = apply_rules rs' t.
Proof.
  intros H Hp. revert t H.
  induction Hp as [|x l l' Hp IH|x y l|l l' l'' Hp1 IH1 Hp2 IH2]; intros t H.
  - done.
  - rewrite !apply_rules_cons. apply IH.
    intros q r Hq Hr. apply H; by apply elem_of_cons; right.
  - rewrite !apply_rules_cons. f_equal. unfold apply_rule.
    destruct (H x y) as [->|Ha]; [set_solver.. | done |].
    by apply replace_comm.
  - rewrite IH1 by done. apply IH2.
    intros q r Hq Hr. apply H; by rewrite Hp1.
Qed.

Lemma RULES_independent : independent RULES = true.
Proof. vm_compute. reflexivity. Qed.

Lemma RULES_NoDup : NoDup RULES.
Proof. apply (bool_decide_unpack _). vm_compute. reflexivity. Qed.

(** ** The clock and the platform *)

Section hosts.
Import Zip.
Variables (zin : ZipFile) (h1 h2 : host).

(** Worlds that agree on what was printed and, entry by entry, on the
    data; entries not called [content.xml] agree altogether. *)
Local Abbreviation same_data :=
  (Forall2 (λ m1 m2 : member,
     payload m1 = payload m2 ∧ name_of m1 = name_of m2 ∧
     (name_of m1 ≠ content_xml → m1 = m2))).



End hosts.

(** ** What a run can raise, and what it leaves behind *)

Section further.
Import Zip.




(** X3: the notice is printed once when the run completes and not at
    all when it raises; nothing else is printed. *)
Theorem notice_printed_on_completion h src :
  stdout (sanitize h src).2
  = match (sanitize h src).1 with
    | inr _ => [completion_notice]
    | inl _ => []
    end.
Proof.
  destruct (sanitize_cases h src)
    as [(out & _ & ->)|(pre & m & post & out & e & _ & _ & _ & ->)]; done.
Qed.





(** X6: run on its own output (names unique, same clock), the script
    reproduces that output: the rewritten [content.xml] decodes to the
    transformed text, on which the rules find nothing more to do. *)
Theorem rerun_reproduces h src w :
  NoDup (names src) →
  sanitize h src = (inr (), w) →
  sanitize h (zout w) = (inr (), w).
Proof.
  intros Hnd Hrun. pose proof Hrun as [Hw Hout]%sanitize_ok_inv.
  pose proof (writes_names _ _ _ _ Hw) as Hnames.
  assert (NoDup (names (zout w))) as Hnd' by (by rewrite Hnames).
  transitivity (inr (A:=exn) (), {| zout := zout w; stdout := [completion_notice] |});
    [|by destruct w; simpl in *; subst].
  apply sanitize_completes.
  apply Forall_Forall2_diag, Forall_forall.
  intros m' [i Hi']%list_elem_of_lookup_1.
  destruct (Forall2_lookup_r _ _ _ _ _ Hw Hi') as (m & Hi & Hm).
  destruct (decide (name_of m = content_xml)) as [Hn|Hn].
  - rewrite (written_unique_target h src Hnd i m Hi Hn) in Hm.
    destruct (utf8_decode (payload m)) as [xml|] eqn:Hx; [|done].
    destruct (utf8_encode (transform xml)) as [data|] eqn:Hd; [|done].
    injection Hm as <-.
    rewrite (written_unique_target h (zout w) Hnd' i _ Hi' eq_refl).
    cbn [payload]. rewrite (utf8_encode_decode _ _ Hd).
    rewrite (transform_rules (transform xml)), (transform_rules xml).
    rewrite apply_rules_idempotent by apply RULES_compatible.
    by rewrite <- transform_rules, Hd.
  - rewrite (written_unique_other h src Hnd i m Hi Hn) in Hm.
    injection Hm as <-.
    by apply (written_unique_other h (zout w) Hnd' i m Hi' Hn).
Qed.

Lemma rerun_reproduces_witness :
  sanitize host0 (zout (sanitize host0 demo_archive).2)
  = (inr (), (sanitize host0 demo_archive).2).
Proof.
  apply (rerun_reproduces host0 demo_archive).
  - apply (bool_decide_unpack _). vm_compute. reflexivity.
  - vm_compute. reflexivity.
Defined.

(** X7: on this codec decoding and encoding are inverse to each other:
    octets decode to a text exactly when the text encodes to these
    octets. So [content.decode('utf-8')] loses nothing, and what
    [xml.encode('utf-8')] writes decodes to [xml] again. *)
Theorem utf8_round_trip bs t :
  utf8_decode bs = Some t ↔ utf8_encode t = Some bs.
Proof. split; [apply utf8_decode_encode | apply utf8_encode_decode]. Qed.

(** X8: whatever the source held, the [content.xml] of a completed run
    is valid UTF-8 and decodes to the transformed text of the entry the
    name leads to. *)
Theorem target_output_decodes h src w i m :
  sanitize h src = (inr (), w) →
  src !! i = Some m →
  name_of m = content_xml →
  ∃ m0 xml m',
    last_named content_xml src = Some m0 ∧
    utf8_decode (payload m0) = Some xml ∧
    zout w !! i = Some m' ∧
    utf8_decode (payload m') = Some (transform xml).
Proof.
  intros [Hw _]%sanitize_ok_inv Hi Hn.
  destruct (Forall2_lookup_l _ _ _ _ _ Hw Hi) as (m' & Hi' & Hm').
  destruct (written_target h src m) as (m0 & Hm0 & Hwr);
    [by eapply list_elem_of_lookup_2 | done |].
  rewrite Hwr in Hm'.
  destruct (utf8_decode (payload m0)) as [xml|] eqn:Hx; [|done].
  destruct (utf8_encode (transform xml)) as [data|] eqn:Hd; [|done].
  injection Hm' as <-. eexists m0, xml, _. split_and!; [done..|].
  by apply utf8_encode_decode.
Qed.

Lemma target_output_decodes_witness :
  ∃ m0 xml m',
    last_named content_xml twin_archive = Some m0 ∧
    utf8_decode (payload m0) = Some xml ∧
    zout (sanitize host0 twin_archive).2 !! 0 = Some m' ∧
    utf8_decode (payload m') = Some (transform xml).
Proof.
  apply (target_output_decodes host0 twin_archive
           (sanitize host0 twin_archive).2 0
           (entry "content.xml" (utf8 "<p>first: 30062025</p>"))).
  - vm_compute. reflexivity.
  - reflexivity.
  - vm_compute. reflexivity.
Defined.

(** X9: the transformation leaves a text as it is exactly when none of
    the eleven search literals occurs in it. *)
Theorem transform_fixed_points t :
  transform t = t ↔ Forall (λ r : rule, ¬ occurs r.1 t) RULES.
Proof.
  rewrite transform_rules. split.
  - intros <-. apply apply_rules_clean, RULES_compatible.
  - apply apply_rules_absent. by apply compatible_spec, RULES_compatible.
Qed.

(** X10: the order of the eleven [replace] statements does not matter:
    applied in any order, the rules give the text [transform] gives. *)
Theorem rule_order_irrelevant rs t :
  rs ≡ₚ RULES → apply_rules rs t = transform t.
Proof.
  intros Hp. rewrite transform_rules. symmetry.
  apply apply_rules_perm; [|done].
  apply independent_spec, RULES_independent.
Qed.

Lemma rule_order_irrelevant_witness :
  apply_rules (reverse RULES) amount_twice = transform amount_twice.
Proof.
  apply (rule_order_irrelevant (reverse RULES) amount_twice).
  apply reverse_Permutation.
Defined.

(** X11: after the transformation none of the eleven search literals
    occurs in the text, whatever the text was. *)
Theorem no_literal_survives t :
  Forall (λ r : rule, ¬ occurs r.1 (transform t)) RULES.
Proof. rewrite transform_rules. apply apply_rules_clean, RULES_compatible. Qed.

(** X12: every occurrence of a search literal in the original text is
    still there when its rule runs: the rules before it neither use one
    up nor make a new one. *)
Theorem occurrences_reach_rule i r t :
  RULES !! i = Some r →
  occurrences r.1 (apply_rules (take i RULES) t) = occurrences r.1 t.
Proof.
  intros Hi.
  assert (r ∈ RULES) as Hr by (by eapply list_elem_of_lookup_2).
  apply occurrences_apply_rules; [by apply RULES_nonempty|].
  apply Forall_forall. intros q (j & Hj & Hlt)%elem_of_take.
  assert (q ∈ RULES) as Hq by (by eapply list_elem_of_lookup_2).
  destruct (independent_spec RULES RULES_independent r q Hr Hq) as [->|Ha].
  - pose proof (NoDup_lookup RULES i j q RULES_NoDup Hi Hj). lia.
  - unfold apart in Ha. rewrite !andb_true_iff, !nonempty_spec in Ha.
    destruct Ha as [[[[[_ Hq1] F1] _] F2] _]. done.
Qed.

Lemma occurrences_reach_rule_witness :
  occurrences amount_old (apply_rules (take 10 RULES) amount_twice)
  = occurrences amount_old amount_twice.
Proof.
  apply (occurrences_reach_rule 10 (amount_old, amount_new) amount_twice).
  reflexivity.
Defined.




(** In [twin_styles_archive] both entries called [styles.xml] come out
    with the data of the second. *)
Example duplicate_names_data :
  payload <$> zout (sanitize host0 twin_styles_archive).2
  = [utf8 "<new/>";
     utf8 "application/vnd.oasis.opendocument.text";
     utf8 "<new/>"].
Proof. vm_compute. reflexivity. Qed.

End further.
